(** * newsroom: the audio synthesis and stitching pipeline

    A shallow embedding of [newsroom/audio.py] and of the part of
    [newsroom/config.py] it calls ([resolve_voice_id] and its tables),
    followed by the properties of the chunker, the context resolver, the
    continuity tracker and the final assembly.

    Python values are modelled as follows.
    - [str] is a sequence of Unicode code points: [list N].
    - [int] is [Z]; [len] returns a [Z].
    - a [dict] is a [gmap]; the constant tables of [config.py] are built
      with [list_to_map] from their literal.
    - the value that stands for a voice is a [pyval]: a string, or
      another object that [getattr] found on the pydantic model.
    - an exception is a value of [exn]; code that can raise runs in [M].
    - the file system, the ffmpeg subprocess, the ElevenLabs client and
      [pathlib] are collaborators gathered in the class [Host]. *)

From Stdlib Require Import ZArith Lia Ascii.
From stdpp Require Import base option list sorting strings gmap pretty.

Local Open Scope Z_scope.

(** ** Python strings, sequences and truthiness *)

Abbreviation str := (list N).

(** A string literal of the source, as code points. *)
Definition lit (s : string) : str :=
  N_of_ascii <$> String.list_ascii_of_string s.

Definition len {A} (l : list A) : Z := Z.of_nat (length l).

(** Truthiness of a sequence: non-empty. *)
Definition truthy {A} (l : list A) : bool :=
  match l with [] => false | _ => true end.

(** [x or None] on a sequence. *)
Definition or_none {A} (l : list A) : option (list A) :=
  if truthy l then Some l else None.

(** Normalisation of one slice bound against a sequence of length [n]
    (step 1): a negative bound counts from the end, and both ends are
    clamped to [0..n]. *)
Definition adjust_bound (n i : Z) : Z :=
  if i <? 0 then Z.max (i + n) 0 else Z.min i n.

(** [l[lo:hi]], with [None] for an omitted bound. *)
Definition slice {A} (l : list A) (lo hi : option Z) : list A :=
  let n := len l in
  let start := from_option (adjust_bound n) 0 lo in
  let stop := from_option (adjust_bound n) n hi in
  take (Z.to_nat (stop - start)) (drop (Z.to_nat start) l).

(** [str.isspace] on one code point, the test behind [str.strip()]. *)
Definition isspace (c : N) : bool :=
  ((9 <=? c) && (c <=? 13) || (28 <=? c) && (c <=? 32)
   || (c =? 133) || (c =? 160) || (c =? 5760)
   || (8192 <=? c) && (c <=? 8202)
   || (c =? 8232) || (c =? 8233) || (c =? 8239) || (c =? 8287)
   || (c =? 12288))%N.

Fixpoint lstrip (s : str) : str :=
  match s with
  | c :: s' => if isspace c then lstrip s' else s
  | [] => []
  end.

Definition rstrip (s : str) : str := reverse (lstrip (reverse s)).

Definition strip (s : str) : str := rstrip (lstrip s).

(** ** The chunker *)

(** Character limit per ElevenLabs request. *)
Definition CHUNK_LIMIT : Z := 4000.

(** [char in ".!?"] *)
Definition is_terminator (c : N) : bool := bool_decide (c ∈ lit ".!?").

(** The [for char in text] loop of [_split_sentences], with its two
    variables [parts] and [current]. *)
Fixpoint split_sentences_loop (text : str) (parts : list str) (current : str)
  : list str * str :=
  match text with
  | [] => (parts, current)
  | char :: rest =>
      let current := current ++ [char] in
      if is_terminator char && (len current >? 1)
      then split_sentences_loop rest (parts ++ [current]) []
      else split_sentences_loop rest parts current
  end.

Definition _split_sentences (text : str) : list str :=
  let '(parts, current) := split_sentences_loop text [] [] in
  if truthy current then parts ++ [current] else parts.

(** The [for sentence in ...] loop of [split_into_chunks]. *)
Fixpoint chunks_loop (limit : Z) (sentences : list str)
    (chunks : list str) (current : str) : list str * str :=
  match sentences with
  | [] => (chunks, current)
  | sentence :: rest =>
      if truthy current && (len current + len sentence >? limit)
      then chunks_loop limit rest (chunks ++ [strip current]) sentence
      else chunks_loop limit rest chunks (current ++ sentence)
  end.

Definition split_into_chunks (text : str) (limit : Z) : list str :=
  if len text <=? limit then [text]
  else
    let '(chunks, current) := chunks_loop limit (_split_sentences text) [] [] in
    let chunks :=
      if truthy (strip current) then chunks ++ [strip current] else chunks in
    if truthy chunks then chunks else [slice text None (Some limit)].

(** ** Exceptions *)

Inductive exn :=
| RuntimeError (msg : str)
| IndexError
| TypeError                              (* hash() of an unhashable object *)
| ValidationError                        (* raised by a pydantic model *)
| CalledProcessError (returncode : Z)   (* subprocess.run(check=True) *)
| OSError (detail : str)                (* raised by a file-system call *)
| ApiError (detail : str).              (* raised by the ElevenLabs client *)

Inductive res (A : Type) :=
| Ok (a : A)
| Err (e : exn).
Arguments Ok {A} a.
Arguments Err {A} e.

Definition res_bind {A B} (r : res A) (k : A → res B) : res B :=
  match r with Ok a => k a | Err e => Err e end.

#[global] Instance res_ret : MRet res := @Ok.
#[global] Instance res_mbind : MBind res := λ A B k r, res_bind r k.

(** [l[i]] for an integer [i]: negative indices count from the end, an
    index outside the list raises IndexError. *)
Definition getitem {A} (l : list A) (i : Z) : res A :=
  let j := if i <? 0 then i + len l else i in
  if (j <? 0) || (len l <=? j) then Err IndexError
  else match l !! Z.to_nat j with Some x => Ok x | None => Err IndexError end.

(** [range(start, stop)] and [range(start, stop, -1)]. *)
Definition range (start stop : Z) : list Z :=
  (λ k : nat, start + Z.of_nat k) <$> seq 0 (Z.to_nat (stop - start)).

Definition range_down (start stop : Z) : list Z :=
  (λ k : nat, start - Z.of_nat k) <$> seq 0 (Z.to_nat (start - stop)).

(** [enumerate(l)] *)
Definition enumerate {A} (l : list A) : list (Z * A) :=
  zip (Z.of_nat <$> seq 0 (length l)) l.

(** [sep.join(l)] *)
Fixpoint join (sep : str) (l : list str) : str :=
  match l with
  | [] => []
  | [s] => s
  | s :: l' => s ++ sep ++ join sep l'
  end.

(** [str(n)] and [f"{n:03d}"] for an integer. *)
Definition str_of_int (n : Z) : str := lit (pretty n).

Definition format_03d (n : Z) : str :=
  let sign := if n <? 0 then lit "-" else [] in
  let digits := lit (pretty (Z.abs n)) in
  sign ++ replicate (3 - length sign - length digits)%nat 48%N ++ digits.

(** [sorted(l, key=key)]: ascending in the key and stable. *)
Fixpoint insert_by {A} (key : A → Z) (x : A) (l : list A) : list A :=
  match l with
  | [] => [x]
  | y :: l' => if key x <=? key y then x :: l else y :: insert_by key x l'
  end.

Definition sorted {A} (key : A → Z) (l : list A) : list A :=
  foldr (insert_by key) [] l.

(** ** models.py *)

Inductive Format := NEWS | PODCAST | DEBATE | NARRATIVE.

Definition Format_value (f : Format) : str :=
  match f with
  | NEWS => lit "news"
  | PODCAST => lit "podcast"
  | DEBATE => lit "debate"
  | NARRATIVE => lit "narrative"
  end.

Record Segment := {
  index : Z;
  speaker : str;
  text : str;
  emotion_tag : str;
  raw_text : str;
}.

Record Script := {
  format : Format;
  topic : str;
  segments : list Segment;
}.

(** ** config.py *)

Record VoiceConfig := {
  anchor : str;
  host : str;
  cohost : str;
  moderator : str;
  sidea : str;
  sideb : str;
  narrator : str;
}.

Definition VoiceConfig_default : VoiceConfig := {|
  anchor := lit "cjVigY5qzO86Huf0OWal";
  host := lit "cjVigY5qzO86Huf0OWal";
  cohost := lit "TX3LPaxmHKxFdv7VOQHJ";
  moderator := lit "cjVigY5qzO86Huf0OWal";
  sidea := lit "TX3LPaxmHKxFdv7VOQHJ";
  sideb := lit "EXAVITQu4vr4xnSAxGW1";
  narrator := lit "nPczCjz82KWdKScP46A1";
|}.

(** Speaker role -> voice config field, per format. *)
Definition VOICE_MAP : gmap str (gmap str str) :=
  list_to_map [
    (lit "news", list_to_map [(lit "anchor", lit "anchor")]);
    (lit "podcast", list_to_map [(lit "host", lit "host");
                                 (lit "cohost", lit "cohost")]);
    (lit "debate", list_to_map [(lit "moderator", lit "moderator");
                                (lit "sidea", lit "sidea");
                                (lit "sideb", lit "sideb")]);
    (lit "narrative", list_to_map [(lit "narrator", lit "narrator")])
  ].

(** Script speaker labels -> normalized role names. *)
Definition SPEAKER_ALIASES : gmap str str :=
  list_to_map [
    (lit "anchor", lit "anchor");
    (lit "host", lit "host");
    (lit "co-host", lit "cohost");
    (lit "cohost", lit "cohost");
    (lit "moderator", lit "moderator");
    (lit "side-a", lit "sidea");
    (lit "sidea", lit "sidea");
    (lit "side-b", lit "sideb");
    (lit "sideb", lit "sideb");
    (lit "narrator", lit "narrator")
  ].

(** The declared fields of [VoiceConfig], by name. *)
Definition VoiceConfig_fields : gmap str (VoiceConfig → str) :=
  list_to_map [
    (lit "anchor", anchor); (lit "host", host); (lit "cohost", cohost);
    (lit "moderator", moderator); (lit "sidea", sidea); (lit "sideb", sideb);
    (lit "narrator", narrator)
  ].

(** ** What stands for a voice

    [resolve_voice_id] is annotated [-> str], but it reads the voice with
    [getattr] from a pydantic model, and such a model also answers names
    that are not its fields ([copy], [dict], [json], [model_dump],
    [__dict__], ...): with a bound method or another object, not with
    the default. So the value that stands for a voice is a string or
    some other object. An object that is not a string is known here by
    a number; objects that are equal under [==] share their number. *)
Inductive pyval :=
| PyStr (s : str)
| PyObj (o : N).

#[global] Instance pyval_eq_dec : EqDecision pyval.
Proof. solve_decision. Defined.

#[global] Instance pyval_countable : Countable pyval :=
  inj_countable'
    (λ v, match v with PyStr s => inl s | PyObj o => inr o end)
    (λ x, match x with inl s => PyStr s | inr o => PyObj o end)
    (λ v, match v with PyStr _ => eq_refl | PyObj _ => eq_refl end).

(** pydantic's validation of a value for a field annotated [str]: a
    string passes; a method, a dictionary, a set, [None] and the other
    objects a model has as attributes do not. *)
Definition validate_str (v : pyval) : res str :=
  match v with
  | PyStr s => Ok s
  | PyObj _ => Err ValidationError
  end.

(** ** The collaborators and the effects of the pipeline *)

Section Pipeline.
Context {Path World : Type}.

Record NewsroomConfig := {
  voices : VoiceConfig;
  model : str;
  output_format : str;
  openai_model : str;
  data_dir : Path;
}.

Record GeneratedAudio := {
  segment_index : Z;
  file_path : Path;
  request_id : str;
  voice_id : str;
}.

(** The keyword arguments of [client.text_to_speech...convert]. *)
Record Request := {
  req_text : str;
  req_voice_id : pyval;
  req_model_id : str;
  req_output_format : str;
  previous_text : option str;
  next_text : option str;
  previous_request_ids : option (list str);
}.

(** What the pipeline reads from a response: the request-id header, if
    any, and the audio data as the iterator yields it. *)
Record Response := {
  request_id_header : option str;
  data : list (list Byte.byte);
}.

(** Every interaction with a collaborator leaves an event. *)
Inductive Event :=
| EvMkdir (p : Path)
| EvWriteText (p : Path) (content : str)
| EvWriteBytes (p : Path) (content : list Byte.byte)
| EvUnlink (p : Path)
| EvRun (argv : list str)
| EvConvert (r : Request)
| EvPrint (line : str).

(** What lies outside the repository: Python's [str.lower] and [hash],
    pydantic's [BaseModel], [pathlib], the file system, the subprocess
    and the ElevenLabs client. A file-system call and the client may
    fail with a message; a subprocess returns its exit status. *)
Class Host := {
  lower : str → str;
  (* what a [VoiceConfig] answers for a name that is not one of its
     fields, if it has such an attribute *)
  model_attr : VoiceConfig → str → option pyval;
  (* whether [hash] accepts an object that is not a string *)
  hashable : N → bool;
  joinpath : Path → str → Path;
  parent : Path → Path;
  stem : Path → str;
  name : Path → str;
  path_str : Path → str;
  path_exists : Path → World → bool;
  os_mkdir : Path → World → option str * World;
  os_write_text : Path → str → World → option str * World;
  os_write_bytes : Path → list Byte.byte → World → option str * World;
  os_unlink : Path → World → option str * World;
  os_print : str → World → World;
  os_run : list str → World → (str + Z) * World;
  tts_convert : Request → World → (str + Response) * World;
}.

Context {the_host : Host}.

(** The state threaded through the pipeline: the outside world and the
    events so far, oldest first. *)
Record State := {
  world : World;
  trace : list Event;
}.

Definition M (A : Type) : Type := State → res A * State.

Definition ret {A} (a : A) : M A := λ st, (Ok a, st).

Definition bind {A B} (m : M A) (k : A → M B) : M B :=
  λ st, match m st with
        | (Ok a, st') => k a st'
        | (Err e, st') => (Err e, st')
        end.

Definition raise {A} (e : exn) : M A := λ st, (Err e, st).

Definition lift {A} (r : res A) : M A := λ st, (r, st).

Definition get_world : M World := λ st, (Ok (world st), st).

(** [try: body finally: fin] *)
Definition try_finally {A} (body : M A) (fin : M unit) : M A :=
  λ st, let '(r, st1) := body st in
        match fin st1 with
        | (Ok _, st2) => (r, st2)
        | (Err e, st2) => (Err e, st2)
        end.

(** A file-system call: the event is recorded, the world moves on, and
    a failure becomes OSError. *)
Definition os_call (ev : Event) (f : World → option str * World) : M unit :=
  λ st, let '(r, w) := f (world st) in
        (match r with None => Ok () | Some d => Err (OSError d) end,
         {| world := w; trace := trace st ++ [ev] |}).

(** [p.mkdir(parents=True, exist_ok=True)] *)
Definition mkdir (p : Path) : M unit := os_call (EvMkdir p) (os_mkdir p).
Definition write_text (p : Path) (s : str) : M unit :=
  os_call (EvWriteText p s) (os_write_text p s).
Definition write_bytes (p : Path) (b : list Byte.byte) : M unit :=
  os_call (EvWriteBytes p b) (os_write_bytes p b).
(** [p.unlink(missing_ok=True)] *)
Definition unlink (p : Path) : M unit := os_call (EvUnlink p) (os_unlink p).

Definition print (line : str) : M unit :=
  λ st, (Ok (), {| world := os_print line (world st);
                   trace := trace st ++ [EvPrint line] |}).

(** [subprocess.run(argv, capture_output=True, check=True)] *)
Definition subprocess_run (argv : list str) : M unit :=
  λ st, let '(r, w) := os_run argv (world st) in
        (match r with
         | inr 0 => Ok ()
         | inr returncode => Err (CalledProcessError returncode)
         | inl d => Err (OSError d)
         end,
         {| world := w; trace := trace st ++ [EvRun argv] |}).

Definition convert (r : Request) : M Response :=
  λ st, let '(x, w) := tts_convert r (world st) in
        (match x with inr resp => Ok resp | inl d => Err (ApiError d) end,
         {| world := w; trace := trace st ++ [EvConvert r] |}).

#[global] Instance M_ret : MRet M := @ret.
#[global] Instance M_bind : MBind M := λ A B k m, bind m k.

(** ** config.py: [resolve_voice_id] *)

(** [getattr(voices, name, default)]: the field of that name, or else
    the attribute the model has under that name, or else the default. *)
Definition getattr (voices : VoiceConfig) (name : str) (default : pyval)
  : pyval :=
  match VoiceConfig_fields !! name with
  | Some field => PyStr (field voices)
  | None =>
      match model_attr voices name with
      | Some attribute => attribute
      | None => default
      end
  end.

Definition resolve_voice_id (role format_name : str) (config : NewsroomConfig)
  : pyval :=
  let normalized := default (lower role) (SPEAKER_ALIASES !! lower role) in
  let voice_field := default ∅ (VOICE_MAP !! format_name) !! normalized in
  match voice_field with
  | Some voice_field =>
      if truthy voice_field
      then getattr (voices config) voice_field (PyStr (anchor (voices config)))
      else getattr (voices config) normalized (PyStr (anchor (voices config)))
  | None =>
      (* Fallback: try direct attribute lookup *)
      getattr (voices config) normalized (PyStr (anchor (voices config)))
  end.

(** ** audio.py: the context resolver *)

(** The two scanning loops of [_get_adjacent_text], over the indices
    their [range] yields; [break] ends a scan at the first match. *)
Fixpoint scan_backward (segments : list Segment) (voice_id : pyval)
    (config : NewsroomConfig) (indices : list Z) (prev_text : str) : res str :=
  match indices with
  | [] => Ok prev_text
  | i :: indices =>
      seg ← getitem segments i;
      let seg_voice := resolve_voice_id (speaker seg) [] config in
      if bool_decide (seg_voice = voice_id)
      then Ok (slice (text seg) (Some (-200)) None)
      else scan_backward segments voice_id config indices prev_text
  end.

Fixpoint scan_forward (segments : list Segment) (voice_id : pyval)
    (config : NewsroomConfig) (indices : list Z) (next_text : str) : res str :=
  match indices with
  | [] => Ok next_text
  | i :: indices =>
      seg ← getitem segments i;
      let seg_voice := resolve_voice_id (speaker seg) [] config in
      if bool_decide (seg_voice = voice_id)
      then Ok (slice (text seg) None (Some 200))
      else scan_forward segments voice_id config indices next_text
  end.

Definition _get_adjacent_text (segments : list Segment) (idx : Z)
    (voice_id : pyval) (config : NewsroomConfig) : res (str * str) :=
  prev_text ← scan_backward segments voice_id config
                 (range_down (idx - 1) (Z.max (idx - 4) (-1))) [];
  next_text ← scan_forward segments voice_id config
                 (range (idx + 1) (Z.min (idx + 4) (len segments))) [];
  Ok (prev_text, next_text).

(** ** audio.py: the continuity tracker

    [voice_request_ids] is a [defaultdict(list)]: subscripting a missing
    key stores an empty list under it and returns that list. Its keys
    are the values that stand for a voice. A dictionary hashes a key
    before it looks it up, and [hash] raises TypeError on an unhashable
    object: that is [check_hashable], which the pipeline passes once per
    turn, at its first subscript with the voice of the turn. *)

Definition check_hashable (key : pyval) : res unit :=
  match key with
  | PyStr _ => Ok ()
  | PyObj o => if hashable o then Ok () else Err TypeError
  end.

Definition dd_getitem (d : gmap pyval (list str)) (k : pyval)
  : list str * gmap pyval (list str) :=
  match d !! k with
  | Some l => (l, d)
  | None => ([], <[k := []]> d)
  end.

(** [voice_request_ids[voice_id][-3:]], for a key that [hash] accepts *)
Definition history_for (d : gmap pyval (list str)) (voice_id : pyval)
  : list str * gmap pyval (list str) :=
  let '(l, d) := dd_getitem d voice_id in
  (slice l (Some (-3)) None, d).

(** [if request_id: voice_request_ids[voice_id].append(request_id)] *)
Definition record (d : gmap pyval (list str)) (voice_id : pyval)
    (request_id : str) : gmap pyval (list str) :=
  if truthy request_id
  then let '(l, d) := dd_getitem d voice_id in <[voice_id := l ++ [request_id]]> d
  else d.

(** ** audio.py: synthesis *)

Definition _generate_segment (text : str) (voice_id : pyval)
    (model_id output_format : str) (previous_text next_text : option str)
    (previous_request_ids : option (list str)) (out_path : Path) : M str :=
  (* ElevenLabs v3 does not yet support previous/next_text context *)
  let '(previous_text, next_text, previous_request_ids) :=
    if bool_decide (model_id = lit "eleven_v3")
    then (None, None, None)
    else (previous_text, next_text, previous_request_ids) in
  response ← convert {|
    req_text := text;
    req_voice_id := voice_id;
    req_model_id := model_id;
    req_output_format := output_format;
    previous_text := previous_text;
    next_text := next_text;
    previous_request_ids := previous_request_ids;
  |};
  let request_id := default [] (request_id_header response) in
  let audio_data := concat (data response) in
  write_bytes out_path audio_data;;
  mret request_id.

(** The ffmpeg command line of both concatenations. *)
Definition ffmpeg_concat_argv (concat_txt output : Path) : list str :=
  [lit "ffmpeg"; lit "-y"; lit "-f"; lit "concat"; lit "-safe"; lit "0";
   lit "-i"; path_str concat_txt; lit "-c"; lit "copy"; path_str output].

(** ["\n".join(f"file '{f}'" for f in files)] *)
Definition concat_manifest (files : list Path) : str :=
  join [10%N] ((λ f, lit "file '" ++ path_str f ++ lit "'") <$> files).

Definition _concat_files (files : list Path) (output : Path) : M unit :=
  let concat_txt := joinpath (parent output) (stem output ++ lit "_concat.txt") in
  write_text concat_txt (concat_manifest files);;
  try_finally
    (subprocess_run (ffmpeg_concat_argv concat_txt output))
    (unlink concat_txt).

(** The context of chunk [ci] of a turn: the neighbouring chunks of the
    same turn, or else the turn-level context. *)
Definition chunk_context (chunks : list str) (ci : Z)
    (prev_text next_text : str) : res (str * str) :=
  chunk_prev ← (if ci >? 0
                then c ← getitem chunks (ci - 1); Ok (slice c (Some (-200)) None)
                else Ok prev_text);
  chunk_next ← (if ci <? len chunks - 1
                then c ← getitem chunks (ci + 1); Ok (slice c None (Some 200))
                else Ok next_text);
  Ok (chunk_prev, chunk_next).

Definition segment_file (audio_dir : Path) (seg : Segment) : Path :=
  joinpath audio_dir (format_03d (index seg) ++ lit "_" ++ speaker seg ++ lit ".mp3").

Definition chunk_file (audio_dir : Path) (seg : Segment) (ci : Z) : Path :=
  joinpath audio_dir
    (format_03d (index seg) ++ lit "_" ++ speaker seg
     ++ lit "_chunk" ++ str_of_int ci ++ lit ".mp3").

(** The body of [for ci, chunk_text in enumerate(chunks)]. *)
Definition synthesize_chunk (config : NewsroomConfig) (audio_dir : Path)
    (seg : Segment) (voice_id : pyval) (prev_text next_text : str)
    (prev_ids : list str) (chunks : list str) (ci : Z) (chunk_text : str)
    (voice_request_ids : gmap pyval (list str)) (chunk_files : list Path)
  : M (gmap pyval (list str) * list Path) :=
  let out_path :=
    if len chunks >? 1 then chunk_file audio_dir seg ci
    else segment_file audio_dir seg in
  (* For multi-chunk: use previous chunk text as context *)
  '(chunk_prev, chunk_next) ← lift (chunk_context chunks ci prev_text next_text);
  request_id ← _generate_segment chunk_text voice_id (model config)
                  (output_format config) (or_none chunk_prev)
                  (or_none chunk_next) (or_none prev_ids) out_path;
  let chunk_files := chunk_files ++ [out_path] in
  let voice_request_ids := record voice_request_ids voice_id request_id in
  mret (voice_request_ids, chunk_files).

Fixpoint chunk_loop (config : NewsroomConfig) (audio_dir : Path)
    (seg : Segment) (voice_id : pyval) (prev_text next_text : str)
    (prev_ids : list str) (chunks : list str) (items : list (Z * str))
    (voice_request_ids : gmap pyval (list str)) (chunk_files : list Path)
  : M (gmap pyval (list str) * list Path) :=
  match items with
  | [] => mret (voice_request_ids, chunk_files)
  | (ci, chunk_text) :: items =>
      '(voice_request_ids, chunk_files) ←
        synthesize_chunk config audio_dir seg voice_id prev_text next_text
          prev_ids chunks ci chunk_text voice_request_ids chunk_files;
      chunk_loop config audio_dir seg voice_id prev_text next_text prev_ids
        chunks items voice_request_ids chunk_files
  end.

Fixpoint unlink_all (files : list Path) : M unit :=
  match files with
  | [] => mret ()
  | cf :: files => unlink cf;; unlink_all files
  end.

(** The body of [for seg in script.segments]. *)
Definition synthesize_segment (script : Script) (config : NewsroomConfig)
    (audio_dir : Path) (seg : Segment)
    (voice_request_ids : gmap pyval (list str)) (results : list GeneratedAudio)
  : M (gmap pyval (list str) * list GeneratedAudio) :=
  let voice_id :=
    resolve_voice_id (speaker seg) (Format_value (format script)) config in
  '(prev_text, next_text) ←
    lift (_get_adjacent_text (segments script) (index seg) voice_id config);
  lift (check_hashable voice_id);;
  let '(prev_ids, voice_request_ids) := history_for voice_request_ids voice_id in
  let chunks := split_into_chunks (text seg) CHUNK_LIMIT in
  '(voice_request_ids, chunk_files) ←
    chunk_loop config audio_dir seg voice_id prev_text next_text prev_ids
      chunks (enumerate chunks) voice_request_ids [];
  (* If multiple chunks, concatenate them into a single segment file *)
  final_path ←
    (if len chunk_files >? 1
     then let final_path := segment_file audio_dir seg in
          _concat_files chunk_files final_path;;
          unlink_all chunk_files;;
          mret final_path
     else lift (getitem chunk_files 0));
  let '(ids, voice_request_ids) := dd_getitem voice_request_ids voice_id in
  last_id ← lift (if truthy ids then getitem ids (-1) else Ok []);
  (* GeneratedAudio(...) validates its fields *)
  voice ← lift (validate_str voice_id);
  let results := results ++ [{|
    segment_index := index seg;
    file_path := final_path;
    request_id := last_id;
    voice_id := voice;
  |}] in
  let tag_display :=
    if truthy (emotion_tag seg) then lit " [" ++ emotion_tag seg ++ lit "]"
    else [] in
  print (lit "  [" ++ str_of_int (index seg + 1) ++ lit "/"
         ++ str_of_int (len (segments script)) ++ lit "] "
         ++ speaker seg ++ tag_display ++ lit " - " ++ name final_path);;
  mret (voice_request_ids, results).

Fixpoint segment_loop (script : Script) (config : NewsroomConfig)
    (audio_dir : Path) (segs : list Segment)
    (voice_request_ids : gmap pyval (list str)) (results : list GeneratedAudio)
  : M (list GeneratedAudio) :=
  match segs with
  | [] => mret results
  | seg :: segs =>
      '(voice_request_ids, results) ←
        synthesize_segment script config audio_dir seg voice_request_ids results;
      segment_loop script config audio_dir segs voice_request_ids results
  end.

Definition generate_audio (script : Script) (config : NewsroomConfig)
    (audio_dir : Path) : M (list GeneratedAudio) :=
  mkdir audio_dir;;
  (* client = ElevenLabs(): the client is the [tts_convert] of the host *)
  (* Track request IDs per voice for stitching (max 3) *)
  segment_loop script config audio_dir (segments script) ∅ [].

(** ** audio.py: the final assembly *)

(** The files handed to ffmpeg: the artifacts sorted by segment index,
    those whose file exists, their paths. *)
Definition file_paths (audio_files : list GeneratedAudio) (w : World)
  : list Path :=
  let sorted_files := sorted segment_index audio_files in
  file_path <$> filter (λ a, path_exists (file_path a) w) sorted_files.

Definition concat_final (audio_files : list GeneratedAudio) (output : Path)
  : M Path :=
  w ← get_world;
  let file_paths := file_paths audio_files w in
  if negb (truthy file_paths)
  then raise (RuntimeError (lit "No audio files to concatenate"))
  else
    let concat_txt := joinpath (parent output) (lit "concat.txt") in
    write_text concat_txt (concat_manifest file_paths);;
    subprocess_run (ffmpeg_concat_argv concat_txt output);;
    mret output.

(** ** The context window and the history in the specification's words *)

(** "the last ≤n characters" and "the first ≤n characters" of a text *)
Definition last_chars {A} (n : nat) (s : list A) : list A :=
  drop (length s - n)%nat s.

Definition first_chars {A} (n : nat) (s : list A) : list A := take n s.

(** The turns at positions [k-1] down to [k-3], nearest first, and at
    positions [k+1] up to [k+3]; both stop at the ends of the script. *)
Definition turns_before (segments : list Segment) (k : nat) : list Segment :=
  reverse (drop (k - 3)%nat (take k segments)).

Definition turns_after (segments : list Segment) (k : nat) : list Segment :=
  take 3 (drop (S k) segments).

(** The nearest of the given turns whose voice, resolved under
    [format_name], is [voice_id]. *)
Definition nearest_same_voice (config : NewsroomConfig)
    (format_name : str) (voice_id : pyval) (turns : list Segment)
  : option Segment :=
  head (filter (λ seg, resolve_voice_id (speaker seg) format_name config
                       = voice_id) turns).

Definition previousText (config : NewsroomConfig) (format_name : str)
    (segments : list Segment) (k : nat) (voice_id : pyval) : str :=
  match nearest_same_voice config format_name voice_id (turns_before segments k) with
  | Some seg => last_chars 200 (text seg)
  | None => []
  end.

Definition nextText (config : NewsroomConfig) (format_name : str)
    (segments : list Segment) (k : nat) (voice_id : pyval) : str :=
  match nearest_same_voice config format_name voice_id (turns_after segments k) with
  | Some seg => first_chars 200 (text seg)
  | None => []
  end.

(** "indices are exactly 0..N-1 in the order of the turns" *)
Definition indexed_in_order (segments : list Segment) : Prop :=
  ∀ (i : nat) (seg : Segment), segments !! i = Some seg → index seg = Z.of_nat i.

(** The operations the pipeline performs on the tracker: reading the
    history of a voice and recording a request id for a voice. *)
Inductive tracker_op :=
| Query (voice_id : pyval)
| Record_id (voice_id : pyval) (request_id : str).

Definition run_op (d : gmap pyval (list str)) (op : tracker_op)
  : gmap pyval (list str) :=
  match op with
  | Query voice_id => (history_for d voice_id).2
  | Record_id voice_id request_id => record d voice_id request_id
  end.

(** The list stored for a voice, empty when the voice has no entry. *)
Definition stored (d : gmap pyval (list str)) (voice_id : pyval) : list str :=
  default [] (d !! voice_id).


(** The context of chunk number [i] of a turn, in the specification's
    words. *)
Definition chunk_previous (chunks : list str) (i : nat) (prev_text : str) : str :=
  match i with
  | O => prev_text
  | S j => last_chars 200 (default [] (chunks !! j))
  end.

Definition chunk_following (chunks : list str) (i : nat) (next_text : str) : str :=
  match chunks !! S i with
  | Some c => first_chars 200 c
  | None => next_text
  end.

(** The error of an empty final assembly, and computations that never
    end in a RuntimeError. *)
Definition no_audio_files : exn :=
  RuntimeError (lit "No audio files to concatenate").



End Pipeline.

(** ** A host for examples

    Paths are lists of components, the world is the list of the paths
    created so far, every call succeeds, and the client answers each
    request with no audio and a request id made of the letter r and the
    number of paths in the world. Besides its fields the model answers
    two names: [copy] with a method, object 1, which can be hashed, and
    [__dict__] with a dictionary, object 2, which cannot. *)
Module Demo.
Definition ascii_lower (s : str) : str :=
  (λ c, if (65 <=? c) && (c <=? 90) then c + 32 else c)%N <$> s.

#[global] Instance demo_host : @Host (list str) (list (list str)) := {|
  lower := ascii_lower;
  model_attr v attribute :=
    if bool_decide (attribute = lit "copy") then Some (PyObj 1)
    else if bool_decide (attribute = lit "__dict__") then Some (PyObj 2)
    else None;
  hashable o := bool_decide (o = 1%N);
  joinpath p n := p ++ [n];
  parent p := take (length p - 1) p;
  stem p := default [] (last p);
  name p := default [] (last p);
  path_str p := join (lit "/") p;
  path_exists p w := bool_decide (p ∈ w);
  os_mkdir p w := (None, p :: w);
  os_write_text p s w := (None, p :: w);
  os_write_bytes p b w := (None, p :: w);
  os_unlink p w := (None, filter (λ q, q ≠ p) w);
  os_print line w := w;
  os_run argv w := (inr 0, w);
  tts_convert r w :=
    (inr {| request_id_header := Some (lit "r" ++ str_of_int (len w));
data := [] |}, w);
|}.

Definition config : @NewsroomConfig (list str) := {|
  voices := VoiceConfig_default;
  model := lit "eleven_v3";
  output_format := lit "mp3_44100_128";
  openai_model := lit "gpt-5-mini";
  data_dir := [lit "data"];
|}.

Definition turn (i : Z) (who what : string) : Segment :=
  {| index := i; speaker := lit who; text := lit what;
     emotion_tag := []; raw_text := lit what |}.

Definition turns : list Segment :=
  [turn 0 "HOST" "Hello there."; turn 1 "CO-HOST" "Hi!";
   turn 2 "HOST" "How are you?"].

Definition artifact (i : Z) (file : string) : @GeneratedAudio (list str) :=
  {| segment_index := i; file_path := [lit "audio"; lit file];
     request_id := []; voice_id := host VoiceConfig_default |}.

(** The files of turns 0 and 2 exist, the file of turn 1 is missing. *)
Definition files : list (list str) :=
  [[lit "audio"; lit "002_host.mp3"]; [lit "audio"; lit "000_host.mp3"]].

Definition start : @State (list str) (list (list str)) :=
  {| world := files; trace := [] |}.
Definition config_v2 : @NewsroomConfig (list str) := {|
voices := VoiceConfig_default;
model := lit "eleven_multilingual_v2";
output_format := lit "mp3_44100_128";
openai_model := lit "gpt-5-mini";
data_dir := [lit "data"];
|}.

(** The context and the history of the requests among the events. *)
Definition contexts (events : list (@Event (list str)))
: list (str * option str * option str * option (list str)) :=
omap (λ ev, match ev with
            | EvConvert r =>
                Some (req_text r, previous_text r, next_text r,
                      previous_request_ids r)
            | _ => None
            end) events.

(** A turn of two chunks: 101 sentences of 40 characters. *)
Definition long_turn : Segment :=
{| index := 1; speaker := lit "ANCHOR";
   text := mjoin (replicate 101 (lit "This sentence has just forty characters. "));
   emotion_tag := []; raw_text := [] |}.
End Demo.


(** * Further notions, used by the properties beyond the context resolver *)

(** A unit that was closed by the scan: at least two characters, the
    last one a terminator, and no terminator between the first and the
    last character. *)
Definition closed_unit (u : str) : Prop :=
  ∃ body t, u = body ++ [t] ∧ is_terminator t = true ∧ body ≠ []
            ∧ Forall (λ c, is_terminator c = false) (tail body).

(** The unit under construction: no terminator after its first
    character. *)
Definition open_unit (u : str) : Prop :=
  Forall (λ c, is_terminator c = false) (tail u).

(** A text without any terminator. *)
Definition unterminated (s : str) : Prop :=
  Forall (λ c, is_terminator c = false) s.

(** A chunk as the synthesis wants it: not empty, no whitespace around. *)
Definition trimmed (c : str) : Prop := c ≠ [] ∧ strip c = c.

(** A string whose last character is a terminator. *)
Definition ends_terminated (u : str) : Prop :=
  ∃ t, last u = Some t ∧ is_terminator t = true.

(** ** Runs of the pipeline and the events they leave *)

Section Effects.
Context {Path World : Type} {the_host : @Host Path World}.

(** The requests among some events, oldest first. *)
Definition requests (events : list (@Event Path)) : list Request :=
  omap (λ ev, match ev with EvConvert r => Some r | _ => None end) events.

(** Started in any state, [m] only appends events to the trace, and its
    result and the appended events satisfy [Q]. *)
Definition emits {A} (m : @M Path World A)
    (Q : res A → list (@Event Path) → Prop) : Prop :=
  ∀ st, ∃ events, trace (m st).2 = trace st ++ events ∧ Q (m st).1 events.

(** An operation that sends nothing to the client. *)
Definition silent {A} (m : @M Path World A) : Prop :=
  emits m (λ _ events, requests events = []).

(** [emits] for a property of the result and of the requests alone. *)
Definition sends {A} (m : @M Path World A)
    (Q : res A → list Request → Prop) : Prop :=
  emits m (λ r events, Q r (requests events)).

(** The file of a chunk: a file of its own when the turn has several
    chunks, the file of the turn otherwise. *)
Definition out_path_of (audio_dir : Path) (seg : Segment) (chunks : list str)
    (ci : Z) : Path :=
  if len chunks >? 1 then chunk_file audio_dir seg ci
  else segment_file audio_dir seg.

(** The manifest of [_concat_files] for an output file, and the manifest
    of the final assembly. *)
Definition chunk_manifest (output : Path) : Path :=
  joinpath (parent output) (stem output ++ lit "_concat.txt").


(** The request that [_generate_segment] sends for its arguments: under
    "eleven_v3" the context and the history are left out. *)
Definition sent_request (chunk_text : str) (voice : pyval)
    (model_id output_fmt : str) (prev next : option str) (ids : option (list str)) : Request :=
  let v3 := bool_decide (model_id = lit "eleven_v3") in
  {| req_text := chunk_text;
     req_voice_id := voice;
     req_model_id := model_id;
     req_output_format := output_fmt;
     previous_text := if v3 then None else prev;
     next_text := if v3 then None else next;
     previous_request_ids := if v3 then None else ids |}.

(** The chunks of a turn with their numbers, and the chunks of all the
    turns of a script in the order of their synthesis. *)
Definition jobs_of (seg : Segment) : list (Segment * (Z * str)) :=
  (λ item, (seg, item)) <$> enumerate (split_into_chunks (text seg) CHUNK_LIMIT).

Definition jobs (segs : list Segment) : list (Segment * (Z * str)) :=
  segs ≫= jobs_of.

(** The voice of a turn in the main loop. *)
Definition voice_of (script : Script) (config : NewsroomConfig)
    (seg : Segment) : pyval :=
  resolve_voice_id (speaker seg) (Format_value (format script)) config.

(** [r] is a request for the chunk [job] of a script: the chunk as text,
    the voice of its turn, the model and the output format of the
    configuration, the context of the chunk, and some history of at most
    three ids. *)
Definition request_for (script : Script) (config : NewsroomConfig)
    (job : Segment * (Z * str)) (r : Request) : Prop :=
  let seg := job.1 in
  ∃ prev_text next_text chunk_prev chunk_next prev_ids,
    _get_adjacent_text (segments script) (index seg)
      (voice_of script config seg) config = Ok (prev_text, next_text)
    ∧ chunk_context (split_into_chunks (text seg) CHUNK_LIMIT) job.2.1
        prev_text next_text = Ok (chunk_prev, chunk_next)
    ∧ (length prev_ids ≤ 3)%nat
    ∧ r = sent_request job.2.2 (voice_of script config seg) (model config)
            (output_format config) (or_none chunk_prev) (or_none chunk_next)
            (or_none prev_ids).

(** [a] is the artifact of the turn [seg]. *)
Definition artifact_of (script : Script) (config : NewsroomConfig)
    (audio_dir : Path) (seg : Segment) (a : GeneratedAudio) : Prop :=
  segment_index a = index seg
  ∧ file_path a = segment_file audio_dir seg
  ∧ PyStr (voice_id a) = voice_of script config seg.

End Effects.

Section Limits.
Context {Path World : Type} {the_host : @Host Path World}.

(** The texts of all the chunks of a script, in the order of the turns. *)
Definition chunk_texts (script : Script) : list str :=
  segments script ≫= λ seg, split_into_chunks (text seg) CHUNK_LIMIT.

(** A context that is present is not empty and has at most 200
    characters; a history that is present is not empty and has at most
    three ids. *)
Definition context_within_limits (r : Request) : Prop :=
  (∀ t, previous_text r = Some t → t ≠ [] ∧ len t <= 200)
  ∧ (∀ t, next_text r = Some t → t ≠ [] ∧ len t <= 200)
  ∧ (∀ ids, previous_request_ids r = Some ids → ids ≠ [] ∧ len ids <= 3).

(** A request without context and without history. *)
Definition without_context (r : Request) : Prop :=
  previous_text r = None ∧ next_text r = None ∧ previous_request_ids r = None.

End Limits.

(** ** scriptgen.py and cli.py: labels, tags and slugs *)

(** [s.replace(old, new)] for one-character [old] and [new]. *)
Definition replace_char (old new : N) (s : str) : str :=
  (λ c, if bool_decide (c = old) then new else c) <$> s.

(** The longest prefix of [s] without the character [stop], and the
    rest of [s]. *)
Fixpoint span_until (stop : N) (s : str) : str * str :=
  match s with
  | [] => ([], [])
  | c :: s' =>
      if bool_decide (c = stop) then ([], s)
      else let '(before, rest) := span_until stop s' in (c :: before, rest)
  end.

(** [_LEADING_TAG_RE.match(line_text)], the group "tag" of the match:
    the pattern [^\[(?P<tag>[^\]]+)\]\s*] asks for an opening bracket at
    the start, then one or more characters other than the closing
    bracket, as many as there are, then the closing bracket. *)
Definition leading_tag (line_text : str) : option str :=
  match line_text with
  | c :: rest =>
      if bool_decide (c = 91%N)
      then match span_until 93 rest with
           | (tag, c' :: _) => if truthy tag then Some tag else None
           | (_, []) => None
           end
      else None
  | [] => None
  end.

(** [x in "a-z0-9-"], the characters that [_slugify] keeps. *)
Definition slug_char (c : N) : bool :=
  ((97 <=? c) && (c <=? 122) || (48 <=? c) && (c <=? 57) || (c =? 45))%N.

(** [s.split()]: the maximal runs of characters that are not whitespace,
    [word] being the run under way. *)
Fixpoint str_split_loop (s : str) (word : str) : list str :=
  match s with
  | [] => if truthy word then [word] else []
  | c :: s' =>
      if isspace c
      then (if truthy word then word :: str_split_loop s' []
            else str_split_loop s' [])
      else str_split_loop s' (word ++ [c])
  end.

Definition str_split (s : str) : list str := str_split_loop s [].

(** [sum(xs)] on integers. *)
Definition sum (xs : list Z) : Z := foldl Z.add 0 xs.

(** models.py: [sum(len(s.text.split()) for s in self.segments)] *)
Definition word_count (script : Script) : Z :=
  sum ((λ s, len (str_split (text s))) <$> segments script).

(** One match of [_LINE_RE]: the whole match and its two named groups. *)
Record LineMatch := {
  group_0 : str;
  group_speaker : str;
  group_text : str;
}.

Section Scriptgen.
Context {Path World : Type} {the_host : @Host Path World}.

(** [_LINE_RE.finditer(text)], the matches of the line pattern in the
    order the regular expression engine yields them. *)
Variable finditer : str → list LineMatch.

Definition normalize_speaker (raw : str) : str :=
  let cleaned := replace_char 95 45 (lower (strip raw)) in
  default cleaned (SPEAKER_ALIASES !! cleaned).

(** The loop of [parse_script] over the matches, with its variables
    [segments] and [idx]. *)
Fixpoint parse_loop (matches : list LineMatch) (segments : list Segment)
    (idx : Z) : list Segment :=
  match matches with
  | [] => segments
  | m :: matches =>
      let speaker := normalize_speaker (group_speaker m) in
      let line_text := strip (group_text m) in
      if negb (truthy line_text) then parse_loop matches segments idx
      else
        (* Extract leading tag for metadata (but keep it in the text) *)
        let emotion_tag := default [] (leading_tag line_text) in
        parse_loop matches
          (segments ++ [{| index := idx;
                           speaker := speaker;
                           text := line_text;
                           emotion_tag := emotion_tag;
                           raw_text := group_0 m |}])
          (idx + 1)
  end.

Definition parse_script (text : str) (fmt : Format) (topic : str) : Script :=
  {| format := fmt; topic := topic;
     segments := parse_loop (finditer text) [] 0 |}.

(** A segment as [parse_script] makes them. *)
Definition well_formed_segment (seg : Segment) : Prop :=
  trimmed (text seg)
  ∧ emotion_tag seg = default [] (leading_tag (text seg))
  ∧ ∃ m, speaker seg = normalize_speaker (group_speaker m)
         ∧ text seg = strip (group_text m)
         ∧ raw_text seg = group_0 m.

(** cli.py: [re.sub(r"[^a-z0-9-]", "", text.lower().replace(" ", "-"))] *)
Definition _slugify (text : str) : str :=
  filter (λ c, slug_char c) (replace_char 32 45 (lower text)).

End Scriptgen.
(** * Properties *)

Example split_two_sentences :
  split_into_chunks (lit "One two. Three four. Five.") 12
  = [lit "One two."; lit "Three four."; lit "Five."].
Proof. vm_compute. reflexivity. Qed.

Example split_under_limit :
  split_into_chunks (lit " Hello world. ") CHUNK_LIMIT = [lit " Hello world. "].
Proof. vm_compute. reflexivity. Qed.

(** ** Properties of [strip] *)

Definition blank (s : str) : Prop := Forall (λ c, isspace c = true) s.

Lemma lstrip_blank_app w s : blank w → lstrip (w ++ s) = lstrip s.
Proof.
  induction 1 as [|c w Hc _ IH]; simpl; [done|]. by rewrite Hc.
Qed.

Lemma lstrip_nil_blank s : lstrip s = [] ↔ blank s.
Proof.
  split.
  - induction s as [|c s IH]; simpl; [constructor|].
    destruct (isspace c) eqn:Hc; [|done].
    intros H. constructor; [done|by apply IH].
  - intros H. rewrite <- (app_nil_r s). by rewrite lstrip_blank_app.
Qed.

Lemma lstrip_idemp s : lstrip (lstrip s) = lstrip s.
Proof.
  induction s as [|c s IH]; simpl; [done|].
  destruct (isspace c) eqn:Hc; [done|]. simpl. by rewrite Hc.
Qed.

Lemma lstrip_app_nonblank s t : lstrip s ≠ [] → lstrip (s ++ t) = lstrip s ++ t.
Proof.
  induction s as [|c s IH]; simpl; [done|].
  destruct (isspace c); auto.
Qed.

Lemma lstrip_length s : (length (lstrip s) ≤ length s)%nat.
Proof.
  induction s as [|c s IH]; simpl; [done|].
  destruct (isspace c); simpl; lia.
Qed.

(** A prefix of a string without leading whitespace has none either. *)
Lemma lstrip_fixed_prefix p w : lstrip (p ++ w) = p ++ w → lstrip p = p.
Proof.
  destruct p as [|c p]; simpl; [done|].
  destruct (isspace c); [|done].
  intros H. pose proof (lstrip_length (p ++ w)) as Hlen.
  rewrite H in Hlen. simpl in Hlen. lia.
Qed.

Lemma lstrip_split s : ∃ w, blank w ∧ s = w ++ lstrip s.
Proof.
  induction s as [|c s (w & Hw & IH)]; simpl.
  - exists []. split; [constructor|done].
  - destruct (isspace c) eqn:Hc.
    + exists (c :: w). split; [by constructor|]. simpl. by f_equal.
    + exists []. split; [constructor|done].
Qed.

Lemma blank_reverse w : blank w → blank (reverse w).
Proof. unfold blank. by rewrite Forall_reverse. Qed.

Lemma rstrip_blank_app s w : blank w → rstrip (s ++ w) = rstrip s.
Proof.
  intros Hw. unfold rstrip. rewrite reverse_app.
  by rewrite lstrip_blank_app by by apply blank_reverse.
Qed.

Lemma rstrip_split s : ∃ w, blank w ∧ s = rstrip s ++ w.
Proof.
  destruct (lstrip_split (reverse s)) as (w & Hw & Hs).
  exists (reverse w). split; [by apply blank_reverse|].
  unfold rstrip. rewrite <- reverse_app, <- Hs. by rewrite reverse_involutive.
Qed.

Lemma rstrip_idemp s : rstrip (rstrip s) = rstrip s.
Proof. unfold rstrip. by rewrite reverse_involutive, lstrip_idemp. Qed.

Lemma strip_blank s : blank s → strip s = [].
Proof. intros H. unfold strip. by rewrite (proj2 (lstrip_nil_blank s) H). Qed.

Lemma strip_nil_blank s : strip s = [] → blank s.
Proof.
  unfold strip, rstrip. intros H.
  apply (f_equal reverse) in H. rewrite reverse_involutive in H. simpl in H.
  apply lstrip_nil_blank, blank_reverse in H.
  rewrite reverse_involutive in H.
  apply lstrip_nil_blank. rewrite <- lstrip_idemp. by apply lstrip_nil_blank.
Qed.

Lemma strip_idemp s : strip (strip s) = strip s.
Proof.
  unfold strip.
  destruct (rstrip_split (lstrip s)) as (w & _ & Hs).
  assert (lstrip (rstrip (lstrip s)) = rstrip (lstrip s)) as ->.
  { apply (lstrip_fixed_prefix _ w). rewrite <- Hs. apply lstrip_idemp. }
  apply rstrip_idemp.
Qed.

Lemma strip_app_blank s w : blank w → strip (s ++ w) = strip s.
Proof.
  intros Hw. unfold strip.
  destruct (decide (lstrip s = [])) as [Hs|Hs].
  - rewrite Hs. apply lstrip_nil_blank in Hs.
    assert (blank (s ++ w)) as Hsw by by apply Forall_app.
    by rewrite (proj2 (lstrip_nil_blank _) Hsw).
  - rewrite lstrip_app_nonblank by done. by apply rstrip_blank_app.
Qed.

Lemma slice_blank s lo hi : blank s → blank (slice s lo hi).
Proof. intros H. unfold slice. by apply Forall_take, Forall_drop. Qed.

(** ** Properties of the chunker *)

Lemma split_sentences_loop_concat text parts current :
  let '(parts', current') := split_sentences_loop text parts current in
  concat parts' ++ current' = concat parts ++ current ++ text.
Proof.
  revert parts current. induction text as [|c text IH]; intros parts current.
  - simpl. by rewrite app_nil_r.
  - simpl. destruct (is_terminator c && _).
    + specialize (IH (parts ++ [current ++ [c]]) []).
      destruct (split_sentences_loop _ _ _) as [p q]. rewrite IH.
      rewrite concat_app. simpl. by rewrite !app_nil_r, <- !app_assoc.
    + specialize (IH parts (current ++ [c])).
      destruct (split_sentences_loop _ _ _) as [p q]. rewrite IH.
      by rewrite <- !app_assoc.
Qed.

(** The sentence-like units of a text, concatenated, are the text. *)
Lemma split_sentences_concat text : concat (_split_sentences text) = text.
Proof.
  unfold _split_sentences.
  pose proof (split_sentences_loop_concat text [] []) as H.
  destruct (split_sentences_loop text [] []) as [parts current].
  simpl in H. destruct current; simpl.
  - by rewrite app_nil_r in H.
  - rewrite concat_app. simpl. by rewrite app_nil_r.
Qed.

(** [covers chunks groups]: chunk number [i] is group number [i] of
    consecutive units, up to the whitespace around it. *)
Definition covers (chunks : list str) (groups : list (list str)) : Prop :=
  Forall2 (λ chunk g, strip chunk = strip (concat g)) chunks groups.

Lemma chunks_loop_covers limit sentences chunks current gs g :
  covers chunks gs → current = concat g →
  let '(chunks', current') := chunks_loop limit sentences chunks current in
  ∃ gs' g', concat gs' ++ g' = concat gs ++ g ++ sentences
            ∧ covers chunks' gs' ∧ current' = concat g'.
Proof.
  revert chunks current gs g.
  induction sentences as [|s sentences IH]; intros chunks current gs g Hc ->.
  - simpl. exists gs, g. by rewrite app_nil_r.
  - simpl. destruct (truthy (concat g) && _).
    + specialize (IH (chunks ++ [strip (concat g)]) s (gs ++ [g]) [s]).
      destruct (chunks_loop _ _ _ _) as [chunks' current'].
      destruct IH as (gs' & g' & Hcat & Hcov & Hcur).
      * apply Forall2_app; [done|]. constructor; [apply strip_idemp|constructor].
      * simpl. by rewrite app_nil_r.
      * exists gs', g'. split_and!; [|done..].
        rewrite Hcat, concat_app. simpl. by rewrite app_nil_r, <- !app_assoc.
    + specialize (IH chunks (concat g ++ s) gs (g ++ [s]) Hc).
      destruct (chunks_loop _ _ _ _) as [chunks' current'].
      destruct IH as (gs' & g' & Hcat & Hcov & Hcur).
      * rewrite concat_app. simpl. by rewrite app_nil_r.
      * exists gs', g'. split_and!; [|done..].
        rewrite Hcat. by rewrite <- !app_assoc.
Qed.

(** When the scanning loop and the final flush leave no chunk, nothing was
    flushed inside the loop and the whole text is whitespace. *)
Lemma chunks_loop_no_chunk limit text current :
  chunks_loop limit (_split_sentences text) [] [] = ([], current) →
  strip current = [] → blank text.
Proof.
  intros Hloop Hstrip.
  pose proof (chunks_loop_covers limit (_split_sentences text) [] [] [] []) as H.
  rewrite Hloop in H. destruct H as (gs & g & Hcat & Hcov & ->); [constructor|done|].
  apply Forall2_nil_inv_l in Hcov. subst gs. simpl in Hcat. subst g.
  rewrite split_sentences_concat in Hstrip. by apply strip_nil_blank.
Qed.

(** C2: a text no longer than the limit comes back as the one-element list
    holding that very text, untouched. *)
Theorem split_into_chunks_within_limit (text : str) (limit : Z) :
  len text <= limit → split_into_chunks text limit = [text].
Proof.
  intros H. unfold split_into_chunks.
  by rewrite (proj2 (Z.leb_le _ _) H).
Qed.

Lemma split_into_chunks_within_limit_witness :
  len (lit " Hello world. ") <= CHUNK_LIMIT
  ∧ split_into_chunks (lit " Hello world. ") CHUNK_LIMIT = [lit " Hello world. "].
Proof.
  split.
  - unfold len, CHUNK_LIMIT. simpl. lia.
  - apply split_into_chunks_within_limit. unfold len, CHUNK_LIMIT. simpl. lia.
Defined.

Lemma split_into_chunks_5000_letters :
  split_into_chunks (replicate 5000 65%N) 4000 = [replicate 5000 65%N].
Proof. vm_compute. reflexivity. Qed.

Lemma slice_4000_of_5000_letters :
  len (slice (replicate 5000 65%N) None (Some 4000)) = 4000.
Proof. vm_compute. reflexivity. Qed.

(** C1 (evaluation at the failing input): 5000 letters A without any
    terminator and a limit of 4000 come back as one chunk holding all 5000
    letters; the hard truncation to the first 4000 is not reached. *)
Theorem split_into_chunks_unterminated_not_truncated :
  split_into_chunks (replicate 5000 65%N) 4000 = [replicate 5000 65%N]
  ∧ len <$> split_into_chunks (replicate 5000 65%N) 4000 = [5000]
  ∧ split_into_chunks (replicate 5000 65%N) 4000
    ≠ [slice (replicate 5000 65%N) None (Some 4000)].
Proof.
  rewrite split_into_chunks_5000_letters.
  assert (len (replicate 5000 65%N) = 5000) as Hlen
    by (unfold len; by rewrite length_replicate).
  split; [reflexivity|]. split.
  - by rewrite list_fmap_singleton, Hlen.
  - intros Heq. apply (f_equal (fmap len)) in Heq.
    rewrite !list_fmap_singleton, Hlen, slice_4000_of_5000_letters in Heq.
    discriminate.
Qed.

(** The truncating fallback is taken only for a text made of whitespace. *)
Lemma split_into_chunks_fallback_blank text limit :
  limit < len text →
  ¬ blank text →
  let '(chunks, current) := chunks_loop limit (_split_sentences text) [] [] in
  split_into_chunks text limit
  = if truthy (strip current) then chunks ++ [strip current] else chunks.
Proof.
  intros Hlen Hnb. unfold split_into_chunks.
  rewrite (proj2 (Z.leb_gt _ _) Hlen).
  destruct (chunks_loop _ _ _ _) as [chunks current] eqn:Hloop.
  destruct (strip current) as [|c s] eqn:Hs; simpl.
  - destruct chunks as [|c0 chunks]; simpl; [|done].
    exfalso. apply Hnb. by eapply chunks_loop_no_chunk.
  - by destruct chunks.
Qed.

(** C3: the chunks follow the text's sentence-like units group by group:
    the units, in their order, split into consecutive groups, one per
    chunk, and each chunk is the concatenation of its group up to the
    whitespace around it; the units themselves concatenate to the text. *)
Theorem split_into_chunks_preserves_units (text : str) (limit : Z) :
  ∃ groups : list (list str),
    concat groups = _split_sentences text
    ∧ covers (split_into_chunks text limit) groups
    ∧ concat (concat groups) = text.
Proof.
  cut (∃ groups, concat groups = _split_sentences text
                 ∧ covers (split_into_chunks text limit) groups).
  { intros (groups & Hcat & Hcov). exists groups. split_and!; [done..|].
    rewrite Hcat. apply split_sentences_concat. }
  unfold split_into_chunks. destruct (len text <=? limit).
  { exists [_split_sentences text]. split; [simpl; by rewrite app_nil_r|].
    constructor; [|constructor]. by rewrite split_sentences_concat. }
  pose proof (chunks_loop_covers limit (_split_sentences text) [] [] [] []) as H.
  destruct (chunks_loop _ _ _ _) as [chunks current].
  destruct H as (gs & g & Hcat & Hcov & ->); [constructor|done|].
  simpl in Hcat.
  destruct (strip (concat g)) as [|c s] eqn:Hs; simpl.
  - apply strip_nil_blank in Hs.
    destruct (decide (chunks = [])) as [->|Hne].
    + apply Forall2_nil_inv_l in Hcov. subst gs. simpl in Hcat. subst g.
      exists [_split_sentences text]. split; [simpl; by rewrite app_nil_r|].
      constructor; [|constructor].
      rewrite (strip_blank (concat _)) by done.
      apply strip_blank, slice_blank. by rewrite <- split_sentences_concat.
    + assert (truthy chunks = true) as -> by by destruct chunks.
      destruct (exists_last Hne) as (cs & c & ->).
      apply Forall2_app_inv_l in Hcov as (gs0 & gl & Hcov0 & Hcovl & ->).
      apply Forall2_cons_inv_l in Hcovl as (g1 & gl' & Hc & Hnil & ->).
      apply Forall2_nil_inv_l in Hnil. subst gl'.
      exists (gs0 ++ [g1 ++ g]). split.
      * rewrite <- Hcat, !concat_app. simpl. by rewrite !app_nil_r, <- app_assoc.
      * apply Forall2_app; [done|]. constructor; [|constructor].
        by rewrite concat_app, strip_app_blank.
  - assert (truthy (chunks ++ [c :: s]) = true) as -> by by destruct chunks.
    exists (gs ++ [g]). split.
    + rewrite <- Hcat, concat_app. simpl. by rewrite app_nil_r.
    + apply Forall2_app; [done|]. constructor; [|constructor].
      rewrite <- Hs. apply strip_idemp.
Qed.

Section PipelineProperties.
Context {Path World : Type} {the_host : @Host Path World}.

Implicit Types (config : @NewsroomConfig Path) (st : @State Path World).

Local Abbreviation Run := (@M Path World).

(** ** Voice resolution *)

Lemma list_to_map_same_name (l : list (str * str)) (role field : str) :
  Forall (λ entry, entry.2 = entry.1) l →
  (list_to_map l : gmap str str) !! role = Some field → field = role.
Proof.
  intros Hl Hf. apply elem_of_list_to_map_2 in Hf.
  rewrite Forall_forall in Hl. by apply (Hl (role, field)).
Qed.

(** Every entry of every format table maps a role to the field of the
    same name. *)
Lemma VOICE_MAP_same_name (format_name : str) (table : gmap str str)
    (role field : str) :
  VOICE_MAP !! format_name = Some table → table !! role = Some field →
  field = role.
Proof.
  intros Ht Hf. unfold VOICE_MAP in Ht.
  apply elem_of_list_to_map_2 in Ht.
  repeat (apply elem_of_cons in Ht as [Ht|Ht];
          [pose proof (f_equal snd Ht) as Htable; cbn [snd] in Htable;
           rewrite Htable in Hf;
           eapply list_to_map_same_name; [|exact Hf];
           by repeat constructor|]).
  by apply elem_of_nil in Ht.
Qed.

(** What [resolve_voice_id] returns, whatever the format. *)
Lemma resolve_voice_id_unfold role format_name config :
  resolve_voice_id role format_name config
  = getattr (voices config)
      (default (lower role) (SPEAKER_ALIASES !! lower role))
      (PyStr (anchor (voices config))).
Proof.
  unfold resolve_voice_id.
  destruct (VOICE_MAP !! format_name) as [table|] eqn:Ht; simpl.
  - destruct (table !! _) as [field|] eqn:Hf; [|done].
    rewrite (VOICE_MAP_same_name _ _ _ _ Ht Hf). by destruct (truthy _).
  - by rewrite lookup_empty.
Qed.

(** C10: the voice resolved for a role does not depend on the format
    name; in particular the empty format name used by the context
    resolver gives the voice the main loop gets from the script's
    format. *)
Theorem resolve_voice_id_format_irrelevant (role : str) (config : NewsroomConfig) :
  (∀ format_name1 format_name2 : str,
     resolve_voice_id role format_name1 config
     = resolve_voice_id role format_name2 config)
  ∧ (∀ fmt : Format,
       resolve_voice_id role [] config
       = resolve_voice_id role (Format_value fmt) config).
Proof.
  split; intros; by rewrite !resolve_voice_id_unfold.
Qed.

(** ** Slices and subscripts *)

Lemma slice_last_chars {A} (s : list A) (n : nat) :
  (0 < n)%nat → slice s (Some (- Z.of_nat n)) None = last_chars n s.
Proof.
  intros Hn. unfold slice, last_chars, adjust_bound, len. simpl.
  assert ((- Z.of_nat n <? 0) = true) as -> by (apply Z.ltb_lt; lia).
  replace (Z.to_nat (Z.max (- Z.of_nat n + Z.of_nat (length s)) 0))
    with (length s - n)%nat by lia.
  apply take_ge. rewrite length_drop. lia.
Qed.

Lemma slice_first_chars {A} (s : list A) (n : nat) :
  slice s None (Some (Z.of_nat n)) = first_chars n s.
Proof.
  unfold slice, first_chars, adjust_bound, len. simpl.
  assert ((Z.of_nat n <? 0) = false) as -> by (apply Z.ltb_ge; lia).
  rewrite Z.sub_0_r, drop_0.
  destruct (decide (n ≤ length s)%nat).
  - f_equal. lia.
  - rewrite !take_ge; [done|lia..].
Qed.

Lemma getitem_lookup {A} (l : list A) (i : nat) (x : A) :
  l !! i = Some x → getitem l (Z.of_nat i) = Ok x.
Proof.
  intros Hx. pose proof (lookup_lt_Some _ _ _ Hx) as Hlt.
  unfold getitem, len.
  assert ((Z.of_nat i <? 0) = false) as -> by (apply Z.ltb_ge; lia).
  assert ((Z.of_nat i <? 0) = false) as -> by (apply Z.ltb_ge; lia).
  assert ((Z.of_nat (length l) <=? Z.of_nat i) = false) as ->
    by (apply Z.leb_gt; lia).
  simpl. by rewrite Nat2Z.id, Hx.
Qed.

(** ** The context resolver *)

Lemma scan_backward_found segments voice_id config (positions : list nat)
    (turns : list Segment) (prev_text : str) :
  Forall2 (λ i seg, segments !! i = Some seg) positions turns →
  scan_backward segments voice_id config (Z.of_nat <$> positions) prev_text
  = Ok match nearest_same_voice config [] voice_id turns with
       | Some seg => slice (text seg) (Some (-200)) None
       | None => prev_text
       end.
Proof.
  unfold nearest_same_voice.
  induction 1 as [|i seg positions turns Hseg _ IH]; [done|].
  simpl. rewrite (getitem_lookup _ _ _ Hseg). simpl.
  rewrite filter_cons. case_bool_decide; case_decide; try done.
Qed.

Lemma scan_forward_found segments voice_id config (positions : list nat)
    (turns : list Segment) (next_text : str) :
  Forall2 (λ i seg, segments !! i = Some seg) positions turns →
  scan_forward segments voice_id config (Z.of_nat <$> positions) next_text
  = Ok match nearest_same_voice config [] voice_id turns with
       | Some seg => slice (text seg) None (Some 200)
       | None => next_text
       end.
Proof.
  unfold nearest_same_voice.
  induction 1 as [|i seg positions turns Hseg _ IH]; [done|].
  simpl. rewrite (getitem_lookup _ _ _ Hseg). simpl.
  rewrite filter_cons. case_bool_decide; case_decide; try done.
Qed.

Lemma range_down_before (k : nat) :
  range_down (Z.of_nat k - 1) (Z.max (Z.of_nat k - 4) (-1))
  = Z.of_nat <$> ((λ i, k - 1 - i)%nat <$> seq 0 (min 3 k)).
Proof.
  unfold range_down. rewrite <- list_fmap_compose.
  replace (Z.to_nat (Z.of_nat k - 1 - Z.max (Z.of_nat k - 4) (-1)))
    with (min 3 k) by lia.
  apply list_fmap_ext. intros i j Hj.
  apply lookup_seq in Hj as [-> Hlt]. simpl. lia.
Qed.

Lemma range_after (k n : nat) :
  (k < n)%nat →
  range (Z.of_nat k + 1) (Z.min (Z.of_nat k + 4) (Z.of_nat n))
  = Z.of_nat <$> ((λ i, S k + i)%nat <$> seq 0 (min 3 (n - S k))).
Proof.
  intros Hk. unfold range. rewrite <- list_fmap_compose.
  replace (Z.to_nat (Z.min (Z.of_nat k + 4) (Z.of_nat n) - (Z.of_nat k + 1)))
    with (min 3 (n - S k)) by lia.
  apply list_fmap_ext. intros i j Hj.
  apply lookup_seq in Hj as [-> Hlt]. simpl. lia.
Qed.

Lemma turns_before_positions (segments : list Segment) (k : nat) :
  (k < length segments)%nat →
  Forall2 (λ i seg, segments !! i = Some seg)
    ((λ i, k - 1 - i)%nat <$> seq 0 (min 3 k)) (turns_before segments k).
Proof.
  intros Hk. unfold turns_before.
  assert (length (drop (k - 3) (take k segments)) = min 3 k) as Hlen
    by (rewrite length_drop, length_take; lia).
  apply Forall2_same_length_lookup. split.
  - rewrite length_fmap, length_seq, length_reverse. lia.
  - intros i j seg Hj Hseg.
    apply list_lookup_fmap_Some in Hj as (i' & -> & Hi').
    apply lookup_seq in Hi' as [-> Hlt].
    rewrite reverse_lookup, Hlen in Hseg by lia.
    rewrite lookup_drop, lookup_take_lt in Hseg by lia.
    rewrite <- Hseg. f_equal. lia.
Qed.

Lemma turns_after_positions (segments : list Segment) (k : nat) :
  Forall2 (λ i seg, segments !! i = Some seg)
    ((λ i, S k + i)%nat <$> seq 0 (min 3 (length segments - S k)))
    (turns_after segments k).
Proof.
  unfold turns_after.
  apply Forall2_same_length_lookup. split.
  - rewrite length_fmap, length_seq, length_take, length_drop. lia.
  - intros i j seg Hj Hseg.
    apply list_lookup_fmap_Some in Hj as (i' & -> & Hi').
    apply lookup_seq in Hi' as [-> Hlt].
    rewrite lookup_take_lt, lookup_drop in Hseg by lia. done.
Qed.

Lemma nearest_same_voice_format config format_name voice_id turns :
  nearest_same_voice config format_name voice_id turns
  = nearest_same_voice config [] voice_id turns.
Proof.
  unfold nearest_same_voice. f_equal.
  apply list_filter_iff. intros seg. by rewrite !resolve_voice_id_unfold.
Qed.

(** C4: in a script whose turns carry the indices 0..N-1 in order, the
    context resolved for turn [k] and voice [voice_id] is, before, the
    last ≤200 characters of the nearest same-voice turn among k-1, k-2,
    k-3 and, after, the first ≤200 characters of the nearest same-voice
    turn among k+1, k+2, k+3; a side without such a turn is the empty
    string, and no error is raised. The voice of a candidate may be
    resolved under any format name. *)
Theorem get_adjacent_text_window (segments : list Segment) (k : nat)
    (seg : Segment) (voice_id : pyval) (format_name : str)
    (config : NewsroomConfig) :
  indexed_in_order segments →
  segments !! k = Some seg →
  _get_adjacent_text segments (index seg) voice_id config
  = Ok (previousText config format_name segments k voice_id,
        nextText config format_name segments k voice_id).
Proof.
  intros Hidx Hseg. rewrite (Hidx _ _ Hseg).
  pose proof (lookup_lt_Some _ _ _ Hseg) as Hk.
  unfold _get_adjacent_text, previousText, nextText, len.
  rewrite (nearest_same_voice_format _ format_name _ (turns_before _ _)).
  rewrite (nearest_same_voice_format _ format_name _ (turns_after _ _)).
  rewrite range_down_before, (range_after _ _ Hk).
  rewrite (scan_backward_found _ _ _ _ _ _ (turns_before_positions _ _ Hk)).
  rewrite (scan_forward_found _ _ _ _ _ _ (turns_after_positions _ _)).
  cbn [mbind res_mbind res_bind]. do 2 f_equal.
  - destruct (nearest_same_voice _ _ _ _); [|done].
    exact (slice_last_chars _ 200 ltac:(lia)).
  - destruct (nearest_same_voice _ _ _ _); [|done].
    exact (slice_first_chars _ 200).
Qed.

(** ** The continuity tracker *)

Lemma dd_getitem_fst d k : (dd_getitem d k).1 = stored d k.
Proof. unfold dd_getitem, stored. by destruct (d !! k). Qed.


Lemma history_for_fst d v :
  (history_for d v).1 = last_chars 3 (stored d v).
Proof.
  unfold history_for. rewrite <- dd_getitem_fst.
  destruct (dd_getitem d v) as [l d']. simpl.
  exact (slice_last_chars l 3 ltac:(lia)).
Qed.





(** ** Synthesis *)

(** C9: under the model "eleven_v3" the client receives a request whose
    previous_text, next_text and previous_request_ids are all absent,
    it is the only request of the call, and the call as a whole does not
    depend on the context and history it was given. *)
Theorem generate_segment_v3_discards_context
    (chunk_text : str) (voice : pyval) (output_fmt : str)
    (prev next : option str) (ids : option (list str)) (out_path : Path)
    (st : State) :
  let run := _generate_segment chunk_text voice (lit "eleven_v3") output_fmt
               prev next ids out_path st in
  (∃ events,
     trace run.2
     = trace st
       ++ EvConvert {| req_text := chunk_text;
                       req_voice_id := voice;
                       req_model_id := lit "eleven_v3";
                       req_output_format := output_fmt;
                       previous_text := None;
                       next_text := None;
                       previous_request_ids := None |} :: events
     ∧ Forall (λ ev, ∀ r, ev ≠ EvConvert r) events)
  ∧ (∀ prev' next' ids',
       _generate_segment chunk_text voice (lit "eleven_v3") output_fmt
         prev' next' ids' out_path st = run).
Proof.
  unfold _generate_segment. rewrite bool_decide_eq_true_2 by done.
  split; [|done].
  unfold mbind, M_bind, bind, convert, write_bytes, os_call, mret, M_ret, ret.
  simpl. destruct (tts_convert _ _) as [[detail|response] w]; simpl.
  - by exists [].
  - destruct (os_write_bytes _ _ _) as [[detail|] w']; simpl;
      (eexists [_]; rewrite <- app_assoc; split; [done|];
       by repeat constructor).
Qed.

(** ** The context of a chunk *)

Lemma enumerate_lookup {A} (l : list A) (ci : Z) (x : A) :
  (ci, x) ∈ enumerate l → ∃ i : nat, ci = Z.of_nat i ∧ l !! i = Some x.
Proof.
  unfold enumerate. intros Hin.
  apply list_elem_of_lookup in Hin as [i Hi].
  apply lookup_zip_with_Some in Hi as (ci' & x' & Heq & Hci & Hx).
  injection Heq as -> ->.
  apply list_lookup_fmap_Some in Hci as (j & -> & Hj).
  apply lookup_seq in Hj as [-> _]. by exists i.
Qed.

Lemma chunk_context_spec (chunks : list str) (i : nat) (c prev_text next_text : str) :
  chunks !! i = Some c →
  chunk_context chunks (Z.of_nat i) prev_text next_text
  = Ok (chunk_previous chunks i prev_text, chunk_following chunks i next_text).
Proof.
  intros Hc. pose proof (lookup_lt_Some _ _ _ Hc) as Hlt.
  unfold chunk_context.
  assert ((if Z.of_nat i >? 0
           then c0 ← getitem chunks (Z.of_nat i - 1);
                Ok (slice c0 (Some (-200)) None)
           else Ok prev_text) = Ok (chunk_previous chunks i prev_text)) as ->.
  { unfold chunk_previous. destruct i as [|j]; [done|].
    assert ((Z.of_nat (S j) >? 0) = true) as -> by (apply Z.gtb_lt; lia).
    destruct (lookup_lt_is_Some_2 chunks j ltac:(lia)) as [b Hb].
    replace (Z.of_nat (S j) - 1) with (Z.of_nat j) by lia.
    rewrite (getitem_lookup chunks j b Hb), Hb.
    cbn [mbind res_mbind res_bind default]. f_equal.
    exact (slice_last_chars b 200 ltac:(lia)). }
  assert ((if Z.of_nat i <? len chunks - 1
           then c0 ← getitem chunks (Z.of_nat i + 1);
                Ok (slice c0 None (Some 200))
           else Ok next_text) = Ok (chunk_following chunks i next_text)) as ->.
  { unfold chunk_following.
    replace (Z.of_nat i + 1) with (Z.of_nat (S i)) by lia.
    destruct (chunks !! S i) as [c'|] eqn:Hc'.
    - pose proof (lookup_lt_Some _ _ _ Hc') as Hlt'.
      assert ((Z.of_nat i <? len chunks - 1) = true) as ->
        by (apply Z.ltb_lt; unfold len; lia).
      rewrite (getitem_lookup chunks _ c' Hc').
      cbn [mbind res_mbind res_bind]. f_equal.
      exact (slice_first_chars c' 200).
    - apply lookup_ge_None in Hc'.
      assert ((Z.of_nat i <? len chunks - 1) = false) as ->
        by (apply Z.ltb_ge; unfold len; lia).
      done. }
  done.
Qed.

(** C5: in the loop over [enumerate(chunks)], chunk number [i] is
    synthesized with, as previous context, the last ≤200 characters of
    chunk [i-1] when [i > 0] and the turn-level previous text otherwise
    and, as next context, the first ≤200 characters of chunk [i+1] when
    there is one and the turn-level next text otherwise; an empty
    context is passed as None. *)
Theorem chunk_context_passed (config : NewsroomConfig) (audio_dir : Path)
    (seg : Segment) (voice : pyval) (prev_text next_text : str)
    (prev_ids : list str) (chunks : list str) (ci : Z) (chunk_text : str)
    (ids : gmap pyval (list str)) (chunk_files : list Path) :
  (ci, chunk_text) ∈ enumerate chunks →
  ∃ i : nat,
    ci = Z.of_nat i
    ∧ chunks !! i = Some chunk_text
    ∧ chunk_context chunks ci prev_text next_text
      = Ok (chunk_previous chunks i prev_text,
            chunk_following chunks i next_text)
    ∧ synthesize_chunk config audio_dir seg voice prev_text next_text
        prev_ids chunks ci chunk_text ids chunk_files
      = (let out_path := if len chunks >? 1 then chunk_file audio_dir seg ci
                         else segment_file audio_dir seg in
         request_id ← _generate_segment chunk_text voice (model config)
                         (output_format config)
                         (or_none (chunk_previous chunks i prev_text))
                         (or_none (chunk_following chunks i next_text))
                         (or_none prev_ids) out_path;
         mret (record ids voice request_id, chunk_files ++ [out_path])).
Proof.
  intros Hin. apply enumerate_lookup in Hin as (i & -> & Hc).
  exists i. split_and!; [done..| |].
  - by apply chunk_context_spec with chunk_text.
  - unfold synthesize_chunk.
    by rewrite (chunk_context_spec _ _ _ _ _ Hc).
Qed.

(** ** The final assembly *)













(** ** Which errors the pipeline raises *)
























End PipelineProperties.

(** * The properties on examples *)

(** Scenario: turn 2 of host, co-host, host takes its previous context
    from turn 0, not from turn 1. *)
Lemma get_adjacent_text_window_witness :
  indexed_in_order Demo.turns
  ∧ Demo.turns !! 2%nat = Some (Demo.turn 2 "HOST" "How are you?")
  ∧ _get_adjacent_text Demo.turns 2 (PyStr (host VoiceConfig_default)) Demo.config
    = Ok (lit "Hello there.", []).
Proof.
  assert (indexed_in_order Demo.turns) as Hidx.
  { intros [|[|[|i]]] seg Hseg; simpl in Hseg; by inversion Hseg. }
  split_and!; [exact Hidx|reflexivity|].
  refine (eq_trans
            (get_adjacent_text_window Demo.turns 2 _ (PyStr (host VoiceConfig_default))
               (lit "podcast") Demo.config Hidx eq_refl) _).
  vm_compute. reflexivity.
Defined.

Lemma chunk_context_passed_witness :
  let chunks := [lit "One two."; lit "Three four."; lit "Five."] in
  (1, lit "Three four.") ∈ enumerate chunks
  ∧ ∃ i : nat,
      1 = Z.of_nat i
      ∧ chunks !! i = Some (lit "Three four.")
      ∧ chunk_context chunks 1 (lit "before") (lit "after")
        = Ok (chunk_previous chunks i (lit "before"),
              chunk_following chunks i (lit "after"))
      ∧ synthesize_chunk Demo.config [lit "audio"] (Demo.turn 0 "HOST" "")
          (PyStr (lit "v")) (lit "before") (lit "after") [] chunks 1
          (lit "Three four.") ∅ []
        = (let out_path :=
             if len chunks >? 1
             then chunk_file [lit "audio"] (Demo.turn 0 "HOST" "") 1
             else segment_file [lit "audio"] (Demo.turn 0 "HOST" "") in
           request_id ← _generate_segment (lit "Three four.")
                           (PyStr (lit "v")) (model Demo.config)
                           (output_format Demo.config)
                           (or_none (chunk_previous chunks i (lit "before")))
                           (or_none (chunk_following chunks i (lit "after")))
                           (or_none []) out_path;
           mret (record ∅ (PyStr (lit "v")) request_id, [] ++ [out_path])).
Proof.
  intros chunks.
  assert ((1, lit "Three four.") ∈ enumerate chunks) as Hin.
  { apply list_elem_of_lookup. by exists 1%nat. }
  split; [exact Hin|].
  exact (chunk_context_passed Demo.config [lit "audio"] (Demo.turn 0 "HOST" "")
           (PyStr (lit "v")) (lit "before") (lit "after") [] chunks 1
           (lit "Three four.") ∅ [] Hin).
Defined.

Example chunk_context_middle :
  chunk_context [lit "One two."; lit "Three four."; lit "Five."] 1
    (lit "before") (lit "after") = Ok (lit "One two.", lit "Five.").
Proof. vm_compute. reflexivity. Qed.

Example chunk_context_single :
  chunk_context [lit "One two."] 0 (lit "before") (lit "after")
  = Ok (lit "before", lit "after").
Proof. vm_compute. reflexivity. Qed.

(** Scenario: after the ids r1, r2, r3, r4 the history of the voice is
    r2, r3, r4. *)
Example history_after_four :
  (history_for
     (foldl run_op ∅
        [Record_id (PyStr (lit "v")) (lit "r1"); Query (PyStr (lit "v"));
         Record_id (PyStr (lit "v")) (lit "r2");
         Record_id (PyStr (lit "w")) (lit "x");
         Record_id (PyStr (lit "v")) []; Record_id (PyStr (lit "v")) (lit "r3");
         Record_id (PyStr (lit "v")) (lit "r4")])
     (PyStr (lit "v"))).1
  = [lit "r2"; lit "r3"; lit "r4"].
Proof. vm_compute. reflexivity. Qed.


(** The same scenario, run: the manifest names the files of turns 0 and
    2, in that order, and ffmpeg reads it. *)
Example final_assembly_manifest :
  trace (concat_final [Demo.artifact 2 "002_host.mp3";
                       Demo.artifact 0 "000_host.mp3";
                       Demo.artifact 1 "001_cohost.mp3"]
           [lit "out.mp3"] Demo.start).2
  = [EvWriteText [lit "concat.txt"]
       (lit "file 'audio/000_host.mp3'" ++ [10%N]
        ++ lit "file 'audio/002_host.mp3'");
     EvRun [lit "ffmpeg"; lit "-y"; lit "-f"; lit "concat"; lit "-safe";
            lit "0"; lit "-i"; lit "concat.txt"; lit "-c"; lit "copy";
            lit "out.mp3"]].
Proof. vm_compute. reflexivity. Qed.

Example final_assembly_skips_missing :
  file_paths [Demo.artifact 2 "002_host.mp3"; Demo.artifact 0 "000_host.mp3";
              Demo.artifact 1 "001_cohost.mp3"] Demo.files
  = [[lit "audio"; lit "000_host.mp3"]; [lit "audio"; lit "002_host.mp3"]].
Proof. vm_compute. reflexivity. Qed.

Example final_assembly_nothing_left :
  concat_final [Demo.artifact 1 "001_cohost.mp3"] [lit "out.mp3"] Demo.start
  = (Err no_audio_files, Demo.start).
Proof. vm_compute. reflexivity. Qed.

(** The three turns under the default model "eleven_v3": no request
    carries a context or a history. *)
Example generate_audio_default_model :
  Demo.contexts
    (trace (generate_audio
              {| format := PODCAST; topic := []; segments := Demo.turns |}
              Demo.config [lit "audio"] {| world := []; trace := [] |}).2)
  = [(lit "Hello there.", None, None, None);
     (lit "Hi!", None, None, None);
     (lit "How are you?", None, None, None)].
Proof. vm_compute. reflexivity. Qed.

(** The same turns under a model with context: turn 0 looks ahead to turn
    2, and turn 2 looks back to turn 0 and carries its request id. *)
Example generate_audio_with_context :
  Demo.contexts
    (trace (generate_audio
              {| format := PODCAST; topic := []; segments := Demo.turns |}
              Demo.config_v2 [lit "audio"] {| world := []; trace := [] |}).2)
  = [(lit "Hello there.", None, Some (lit "How are you?"), None);
     (lit "Hi!", None, None, None);
     (lit "How are you?", Some (lit "Hello there."), None, Some [lit "r1"])].
Proof. vm_compute. reflexivity. Qed.

(** A turn of two chunks after a turn of the same voice: the history is
    read once, before the first chunk, so both chunks are sent with the
    id of the earlier turn and the second one without the id of the
    first. *)
Example history_read_once_per_turn :
  (λ c, c.2) <$>
    Demo.contexts
      (trace (generate_audio
                {| format := NEWS; topic := [];
                   segments := [Demo.turn 0 "ANCHOR" "Before."; Demo.long_turn] |}
                Demo.config_v2 [lit "audio"] {| world := []; trace := [] |}).2)
  = [None; Some [lit "r1"]; Some [lit "r1"]].
Proof. vm_compute. reflexivity. Qed.

(** * Further properties of the chunker *)

Lemma split_sentences_loop_units text parts current :
  Forall closed_unit parts → open_unit current →
  Forall closed_unit (split_sentences_loop text parts current).1
  ∧ open_unit (split_sentences_loop text parts current).2.
Proof.
  revert parts current.
  induction text as [|c text IH]; intros parts current Hparts Hcur; [done|].
  simpl. destruct (is_terminator c) eqn:Hc; simpl.
  - destruct (len (current ++ [c]) >? 1) eqn:Hlen.
    + apply IH; [|constructor].
      apply Forall_app. split; [done|]. constructor; [|constructor].
      exists current, c. split_and!; [done..| |done].
      intros ->. simpl in Hlen. done.
    + apply IH; [done|].
      destruct current as [|c0 current]; [constructor|].
      rewrite Z.gtb_ltb in Hlen. apply Z.ltb_ge in Hlen. unfold len in Hlen.
      rewrite length_app in Hlen. simpl in Hlen. lia.
  - apply IH; [done|].
    destruct current as [|c0 current]; [constructor|].
    unfold open_unit in *. simpl in *. apply Forall_app. by repeat constructor.
Qed.

Lemma closed_unit_nonempty u : closed_unit u → u ≠ [].
Proof. intros (body & t & -> & _). by destruct body. Qed.

(** X1: the units of [_split_sentences] are non-empty and, concatenated
    in order, give back the text; the empty text has no unit. *)
Theorem split_sentences_round_trip (text : str) :
  concat (_split_sentences text) = text
  ∧ Forall (λ u, u ≠ []) (_split_sentences text)
  ∧ (_split_sentences text = [] ↔ text = []).
Proof.
  assert (Forall (λ u, u ≠ []) (_split_sentences text)) as Hne.
  { unfold _split_sentences.
    destruct (split_sentences_loop_units text [] []) as [Hparts _];
      [constructor..|].
    destruct (split_sentences_loop text [] []) as [parts current]. simpl in *.
    assert (Forall (λ u : str, u ≠ []) parts) as Hp.
    { eapply Forall_impl; [exact Hparts|]. apply closed_unit_nonempty. }
    destruct current as [|c current]; simpl; [done|].
    apply Forall_app. split; [done|]. by repeat constructor. }
  split_and!; [apply split_sentences_concat|done|].
  split.
  - intros Hnil. rewrite <- (split_sentences_concat text). by rewrite Hnil.
  - intros ->. reflexivity.
Qed.

(** X2: every unit but the last was closed at a terminator and has at
    least two characters, and inside any unit a terminator stands only at
    the first or at the last position. *)
Theorem split_sentences_unit_shape (text : str) :
  (∀ (i : nat) (u : str),
     _split_sentences text !! i = Some u →
     (S i < length (_split_sentences text))%nat →
     (2 ≤ length u)%nat ∧ ∃ t, last u = Some t ∧ is_terminator t = true)
  ∧ (∀ (u : str) (i : nat) (c : N),
       u ∈ _split_sentences text → u !! i = Some c → is_terminator c = true →
       i = 0%nat ∨ S i = length u).
Proof.
  unfold _split_sentences.
  destruct (split_sentences_loop_units text [] []) as [Hparts Hcur];
    [constructor..|].
  destruct (split_sentences_loop text [] []) as [parts current]. simpl in *.
  assert (∀ u, closed_unit u →
            (2 ≤ length u)%nat ∧ (∃ t, last u = Some t ∧ is_terminator t = true)
            ∧ ∀ i c, u !! i = Some c → is_terminator c = true →
                i = 0%nat ∨ S i = length u) as Hclosed.
  { intros u (body & t & -> & Ht & Hbody & Hin). split_and!.
    - rewrite length_app. destruct body; [done|]. simpl. lia.
    - exists t. by rewrite last_snoc.
    - intros i c Hi Hc. rewrite length_app. simpl.
      destruct (decide (i < length body)%nat) as [Hlt|]; [|
        apply lookup_lt_Some in Hi; rewrite length_app in Hi; simpl in Hi; lia].
      rewrite lookup_app_l in Hi by done.
      destruct i as [|i]; [by left|]. exfalso.
      destruct body as [|b body]; [done|]. simpl in *.
      rewrite Forall_forall in Hin.
      rewrite (Hin c) in Hc; [done|]. by eapply list_elem_of_lookup_2. }
  assert (∀ i c, current !! i = Some c → is_terminator c = true → i = 0%nat)
    as Hopen.
  { intros [|i] c Hi Hc; [done|]. exfalso.
    destruct current as [|c0 current]; [done|]. simpl in *.
    unfold open_unit in Hcur. simpl in Hcur. rewrite Forall_forall in Hcur.
    rewrite (Hcur c) in Hc; [done|]. by eapply list_elem_of_lookup_2. }
  rewrite Forall_forall in Hparts.
  split.
  - intros i u Hu Hi.
    assert (u ∈ parts) as Hin.
    { destruct current as [|c0 current]; simpl in *.
      - by eapply list_elem_of_lookup_2.
      - rewrite length_app in Hi. simpl in Hi.
        rewrite lookup_app_l in Hu by lia. by eapply list_elem_of_lookup_2. }
    destruct (Hclosed u (Hparts u Hin)) as (? & ? & _). done.
  - intros u i c Hu Hi Hc.
    assert (u ∈ parts ∨ u = current) as [Hin| ->].
    { destruct current as [|c0 current]; simpl in *; [by left|].
      apply elem_of_app in Hu as [?|Hu]; [by left|].
      apply list_elem_of_singleton in Hu. by right. }
    + destruct (Hclosed u (Hparts u Hin)) as (_ & _ & Hpos). by eapply Hpos.
    + left. by eapply Hopen.
Qed.

Lemma strip_length s : (length (strip s) ≤ length s)%nat.
Proof.
  unfold strip, rstrip. rewrite length_reverse.
  etrans; [apply lstrip_length|]. rewrite length_reverse. apply lstrip_length.
Qed.

Lemma terminator_not_space c : is_terminator c = true → isspace c = false.
Proof.
  unfold is_terminator. intros Hc. apply bool_decide_eq_true_1 in Hc.
  repeat (apply elem_of_cons in Hc as [->|Hc]; [reflexivity|]).
  by apply elem_of_nil in Hc.
Qed.

Lemma ends_terminated_strip u : ends_terminated u → strip u ≠ [].
Proof.
  intros (t & Hlast & Ht) Hnil. apply strip_nil_blank in Hnil.
  apply last_Some in Hlast as [u' ->].
  unfold blank in Hnil. rewrite Forall_app, Forall_singleton in Hnil.
  destruct Hnil as [_ Hnil]. by rewrite (terminator_not_space t Ht) in Hnil.
Qed.

Lemma closed_unit_ends_terminated u : closed_unit u → ends_terminated u.
Proof. intros (body & t & -> & Ht & _). exists t. by rewrite last_snoc. Qed.

Lemma ends_terminated_app u v : ends_terminated v → ends_terminated (u ++ v).
Proof. intros (t & Hlast & Ht). exists t. by rewrite last_app, Hlast. Qed.

(** Every unit but the last is a closed one. *)
Lemma split_sentences_closed text (i : nat) (u : str) :
  _split_sentences text !! i = Some u →
  (S i < length (_split_sentences text))%nat → closed_unit u.
Proof.
  unfold _split_sentences.
  destruct (split_sentences_loop_units text [] []) as [Hparts _];
    [constructor..|].
  destruct (split_sentences_loop text [] []) as [parts current]. simpl in *.
  rewrite Forall_forall in Hparts. intros Hu Hi. apply Hparts.
  destruct current as [|c0 current]; simpl in *.
  - by eapply list_elem_of_lookup_2.
  - rewrite length_app in Hi. simpl in Hi.
    rewrite lookup_app_l in Hu by lia. by eapply list_elem_of_lookup_2.
Qed.

Lemma chunks_loop_bound limit sentences chunks current :
  Forall (λ u, len u <= limit) sentences →
  Forall (λ c, len c <= limit) chunks → len current <= limit →
  Forall (λ c, len c <= limit) (chunks_loop limit sentences chunks current).1
  ∧ len (chunks_loop limit sentences chunks current).2 <= limit.
Proof.
  revert chunks current.
  induction sentences as [|s sentences IH]; intros chunks current Hs Hc Hcur;
    [done|].
  apply Forall_cons in Hs as [Hs Hrest]. simpl.
  destruct (truthy current) eqn:Htr; simpl.
  - destruct (len current + len s >? limit) eqn:Hsum.
    + apply IH; [done| |done]. apply Forall_app. split; [done|].
      constructor; [|constructor]. pose proof (strip_length current).
      unfold len in *. lia.
    + apply IH; [done..|]. rewrite Z.gtb_ltb in Hsum. apply Z.ltb_ge in Hsum.
      unfold len in *. rewrite length_app. lia.
  - destruct current; [|done]. by apply IH.
Qed.

(** X3: when no unit is longer than the limit, no chunk is: the chunks
    then stay within the limit, for any text. *)
Theorem split_into_chunks_within_bound (text : str) (limit : Z) :
  0 <= limit →
  Forall (λ u, len u <= limit) (_split_sentences text) →
  Forall (λ c, len c <= limit) (split_into_chunks text limit).
Proof.
  intros Hlimit Hunits. unfold split_into_chunks.
  destruct (len text <=? limit) eqn:Hlen.
  { apply Z.leb_le in Hlen. by repeat constructor. }
  destruct (chunks_loop_bound limit (_split_sentences text) [] [])
    as [Hchunks Hcur]; [done|constructor|unfold len; simpl; lia|].
  destruct (chunks_loop _ _ _ _) as [chunks current]. simpl in *.
  assert (Forall (λ c, len c <= limit)
            (if truthy (strip current) then chunks ++ [strip current]
             else chunks)) as Hall.
  { destruct (truthy (strip current)); [|done].
    apply Forall_app. split; [done|]. constructor; [|constructor].
    pose proof (strip_length current). unfold len in *. lia. }
  destruct (truthy (if truthy (strip current) then _ else _)); [done|].
  constructor; [|constructor].
  unfold slice, adjust_bound, len. simpl.
  assert ((limit <? 0) = false) as -> by (apply Z.ltb_ge; lia).
  rewrite length_take. lia.
Qed.

Lemma chunks_loop_trimmed limit sentences chunks current :
  (∀ (i : nat) u, sentences !! i = Some u → (S i < length sentences)%nat →
                  closed_unit u) →
  sentences = [] ∨ current = [] ∨ ends_terminated current →
  Forall trimmed chunks →
  Forall trimmed (chunks_loop limit sentences chunks current).1.
Proof.
  revert chunks current.
  induction sentences as [|s sentences IH]; intros chunks current Hs Hcur Hc;
    [done|].
  destruct Hcur as [?|Hcur]; [done|].
  assert (∀ current', current' = s ∨ current' = current ++ s →
            sentences = [] ∨ current' = [] ∨ ends_terminated current') as Hnext.
  { intros current' Hcur'. destruct sentences as [|s' sentences]; [by left|].
    right. right.
    assert (ends_terminated s) as Hts.
    { apply closed_unit_ends_terminated, (Hs 0%nat); [done|simpl; lia]. }
    destruct Hcur' as [->| ->]; [done|by apply ends_terminated_app]. }
  assert (∀ (i : nat) u, sentences !! i = Some u →
            (S i < length sentences)%nat → closed_unit u) as Hs'.
  { intros i u Hu Hi. apply (Hs (S i)); [done|simpl; lia]. }
  simpl. destruct (truthy current) eqn:Htr; simpl.
  - destruct (len current + len s >? limit).
    + apply IH; [done|apply Hnext; by left|].
      apply Forall_app. split; [done|]. constructor; [|constructor].
      split; [|apply strip_idemp].
      destruct Hcur as [->|Hcur]; [done|]. by apply ends_terminated_strip.
    + apply IH; [done|apply Hnext; by right|done].
  - destruct current; [|done]. apply IH; [done|apply Hnext; by left|done].
Qed.

(** X4: the result is never the empty list, and for a text longer than
    the limit that is not all whitespace every chunk is non-empty and has
    no whitespace at either end. *)
Theorem split_into_chunks_nonempty_trimmed (text : str) (limit : Z) :
  split_into_chunks text limit ≠ []
  ∧ (limit < len text → ¬ blank text →
     Forall trimmed (split_into_chunks text limit)).
Proof.
  split.
  - unfold split_into_chunks. destruct (len text <=? limit); [done|].
    destruct (chunks_loop _ _ _ _) as [chunks current].
    by destruct (if truthy (strip current) then _ else _).
  - intros Hlen Hnb.
    pose proof (split_into_chunks_fallback_blank text limit Hlen Hnb) as Heq.
    pose proof (chunks_loop_trimmed limit (_split_sentences text) [] []
                  (split_sentences_closed text)) as Htr.
    destruct (chunks_loop _ _ _ _) as [chunks current]. rewrite Heq.
    simpl in Htr. specialize (Htr ltac:(right; by left) ltac:(constructor)).
    destruct (strip current) as [|c s] eqn:Hs; simpl; [done|].
    apply Forall_app. split; [done|]. constructor; [|constructor].
    split; [done|]. rewrite <- Hs. apply strip_idemp.
Qed.

Lemma split_sentences_loop_unterminated text parts current :
  unterminated text →
  split_sentences_loop text parts current = (parts, current ++ text).
Proof.
  revert current. induction text as [|c text IH]; intros current Hun; simpl.
  - by rewrite app_nil_r.
  - apply Forall_cons in Hun as [Hc Hun]. rewrite Hc. simpl.
    rewrite IH by done. by rewrite <- app_assoc.
Qed.

Lemma split_sentences_unterminated text :
  unterminated text → text ≠ [] → _split_sentences text = [text].
Proof.
  intros Hun Hne. unfold _split_sentences.
  rewrite split_sentences_loop_unterminated by done. simpl.
  by destruct text.
Qed.

(** X5: a text without any terminator that is longer than the limit and
    not all whitespace is never cut: it comes back as one chunk, the
    whole text without the whitespace around it. *)
Theorem split_into_chunks_unterminated (text : str) (limit : Z) :
  unterminated text → ¬ blank text → limit < len text →
  split_into_chunks text limit = [strip text].
Proof.
  intros Hun Hnb Hlen. unfold split_into_chunks.
  rewrite (proj2 (Z.leb_gt _ _) Hlen).
  rewrite split_sentences_unterminated; [|done|].
  - simpl. destruct (strip text) eqn:Hs; [|done].
    exfalso. apply Hnb. by apply strip_nil_blank.
  - intros ->. apply Hnb. constructor.
Qed.

(** X6: the truncating fallback: a text made of whitespace only and
    longer than a non-negative limit comes back as one chunk, its first
    [limit] characters. *)
Theorem split_into_chunks_blank (text : str) (limit : Z) :
  blank text → 0 <= limit → limit < len text →
  split_into_chunks text limit = [take (Z.to_nat limit) text]
  ∧ len (take (Z.to_nat limit) text) = limit.
Proof.
  intros Hb Hlimit Hlen.
  assert (unterminated text) as Hun.
  { eapply Forall_impl; [exact Hb|]. intros c Hc. simpl in Hc.
    destruct (is_terminator c) eqn:Ht; [|done].
    by rewrite (terminator_not_space c Ht) in Hc. }
  split.
  - unfold split_into_chunks. rewrite (proj2 (Z.leb_gt _ _) Hlen).
    rewrite split_sentences_unterminated; [|done|].
    + simpl. rewrite (strip_blank text Hb). simpl.
      f_equal. rewrite <- (Z2Nat.id limit) at 1 by done.
      apply slice_first_chars.
    + intros ->. unfold len in Hlen. simpl in Hlen. lia.
  - unfold len in *. rewrite length_take. lia.
Qed.

(** * Further properties of the pipeline *)

Section MoreProperties.
Context {Path World : Type} {the_host : @Host Path World}.

Implicit Types (config : @NewsroomConfig Path) (st : @State Path World).

(** ** The context resolver *)

Lemma last_chars_length {A} (n : nat) (s : list A) :
  (length (last_chars n s) ≤ n)%nat.
Proof. unfold last_chars. rewrite length_drop. lia. Qed.

Lemma first_chars_length {A} (n : nat) (s : list A) :
  (length (first_chars n s) ≤ n)%nat.
Proof. unfold first_chars. rewrite length_take. lia. Qed.

Lemma scan_backward_bound segments voice config indices prev_text t :
  scan_backward segments voice config indices prev_text = Ok t →
  (length prev_text ≤ 200)%nat → (length t ≤ 200)%nat.
Proof.
  induction indices as [|i indices IH]; simpl; [by intros [= ->]|].
  destruct (getitem segments i) as [seg|e]; simpl; [|done].
  case_bool_decide; [|done]. intros [= <-] _.
  rewrite (slice_last_chars (text seg) 200 ltac:(lia)
             : slice (text seg) (Some (-200)) None = _).
  apply last_chars_length.
Qed.

Lemma scan_forward_bound segments voice config indices next_text t :
  scan_forward segments voice config indices next_text = Ok t →
  (length next_text ≤ 200)%nat → (length t ≤ 200)%nat.
Proof.
  induction indices as [|i indices IH]; simpl; [by intros [= ->]|].
  destruct (getitem segments i) as [seg|e]; simpl; [|done].
  case_bool_decide; [|done]. intros [= <-] _.
  rewrite (slice_first_chars (text seg) 200
             : slice (text seg) None (Some 200) = _).
  apply first_chars_length.
Qed.

Lemma get_adjacent_text_bound segments idx voice config prev_text next_text :
  _get_adjacent_text segments idx voice config = Ok (prev_text, next_text) →
  (length prev_text ≤ 200)%nat ∧ (length next_text ≤ 200)%nat.
Proof.
  unfold _get_adjacent_text.
  destruct (scan_backward _ _ _ _ _) as [p|e] eqn:Hp; [|done].
  destruct (scan_forward _ _ _ _ _) as [n|e] eqn:Hn; [|done].
  cbn [mbind res_mbind res_bind]. intros [= <- <-]. split.
  - by eapply scan_backward_bound; [exact Hp|simpl; lia].
  - by eapply scan_forward_bound; [exact Hn|simpl; lia].
Qed.

(** X7: whatever the script and the index, a context returned by
    [_get_adjacent_text] has at most 200 characters on each side. *)
Theorem get_adjacent_text_at_most_200 (segments : list Segment) (idx : Z)
    (voice : pyval) (config : NewsroomConfig) (prev_text next_text : str) :
  _get_adjacent_text segments idx voice config = Ok (prev_text, next_text) →
  len prev_text <= 200 ∧ len next_text <= 200.
Proof.
  intros Hok. apply get_adjacent_text_bound in Hok. unfold len. lia.
Qed.

Lemma getitem_in_range {A} (l : list A) (i : Z) :
  0 <= i < len l → ∃ x, getitem l i = Ok x.
Proof.
  intros Hi. unfold len in Hi.
  destruct (lookup_lt_is_Some_2 l (Z.to_nat i) ltac:(lia)) as [x Hx].
  exists x. rewrite <- (Z2Nat.id i) by lia. by apply getitem_lookup.
Qed.

Lemma getitem_beyond {A} (l : list A) (i : Z) :
  len l <= i → getitem l i = Err IndexError.
Proof.
  intros Hi. unfold getitem. unfold len in *.
  assert ((i <? 0) = false) as -> by (apply Z.ltb_ge; lia).
  assert ((i <? 0) = false) as -> by (apply Z.ltb_ge; lia).
  assert ((Z.of_nat (length l) <=? i) = true) as -> by (apply Z.leb_le; lia).
  done.
Qed.

Lemma scan_backward_in_range segments voice config indices prev_text :
  Forall (λ i, 0 <= i < len segments) indices →
  ∃ t, scan_backward segments voice config indices prev_text = Ok t.
Proof.
  induction 1 as [|i indices Hi _ IH]; simpl; [by eexists|].
  destruct (getitem_in_range segments i Hi) as [seg ->]. simpl.
  case_bool_decide; [by eexists|done].
Qed.

Lemma scan_forward_in_range segments voice config indices next_text :
  Forall (λ i, 0 <= i < len segments) indices →
  ∃ t, scan_forward segments voice config indices next_text = Ok t.
Proof.
  induction 1 as [|i indices Hi _ IH]; simpl; [by eexists|].
  destruct (getitem_in_range segments i Hi) as [seg ->]. simpl.
  case_bool_decide; [by eexists|done].
Qed.

(** X8: for a non-negative index, [_get_adjacent_text] returns a context
    when the index is at most the number of turns and raises IndexError
    when it is larger. *)
Theorem get_adjacent_text_index_range (segments : list Segment) (idx : Z)
    (voice : pyval) (config : NewsroomConfig) :
  0 <= idx →
  (idx <= len segments →
   ∃ context, _get_adjacent_text segments idx voice config = Ok context)
  ∧ (len segments < idx →
     _get_adjacent_text segments idx voice config = Err IndexError).
Proof.
  intros Hidx. unfold _get_adjacent_text. split; intros Hlen.
  - destruct (scan_backward_in_range segments voice config
                (range_down (idx - 1) (Z.max (idx - 4) (-1))) []) as [p ->].
    { unfold range_down. apply Forall_fmap, Forall_forall. intros k Hk.
      apply elem_of_seq in Hk. simpl. lia. }
    destruct (scan_forward_in_range segments voice config
                (range (idx + 1) (Z.min (idx + 4) (len segments))) []) as [n ->].
    { unfold range. apply Forall_fmap, Forall_forall. intros k Hk.
      apply elem_of_seq in Hk. simpl. lia. }
    by eexists.
  - unfold range_down. unfold len in Hlen.
    destruct (Z.to_nat (idx - 1 - Z.max (idx - 4) (-1))) as [|n] eqn:Hn; [lia|].
    cbn [seq fmap list_fmap scan_backward].
    rewrite getitem_beyond; [done|]. unfold len. lia.
Qed.

(** ** Voice resolution *)

Lemma alias_role (label role : str) :
  SPEAKER_ALIASES !! label = Some role →
  is_Some (VoiceConfig_fields !! role) ∧ SPEAKER_ALIASES !! role = Some role.
Proof.
  intros Hl. unfold SPEAKER_ALIASES in Hl.
  apply elem_of_list_to_map_2 in Hl.
  repeat (apply elem_of_cons in Hl as [Hl|Hl];
          [apply (f_equal snd) in Hl; cbn [snd] in Hl; subst role;
           split; [by eexists|reflexivity]|]).
  by apply elem_of_nil in Hl.
Qed.

Lemma field_is_voice (v : VoiceConfig) (name : str) (field : VoiceConfig → str) :
  VoiceConfig_fields !! name = Some field →
  field v ∈ [anchor v; host v; cohost v; moderator v; sidea v; sideb v; narrator v].
Proof.
  intros Hf. unfold VoiceConfig_fields in Hf. apply elem_of_list_to_map_2 in Hf.
  repeat (apply elem_of_cons in Hf as [Hf|Hf];
          [apply (f_equal snd) in Hf; cbn [snd] in Hf; subst field;
           by repeat constructor|]).
  by apply elem_of_nil in Hf.
Qed.

(** X9: what [resolve_voice_id] returns is decided by the normalized
    role alone, the alias of the lower-cased role or else the lower-cased
    role itself: the voice of the field of that name when there is one;
    or else what the model answers under that name when it has such an
    attribute (a method, for instance), and then not the anchor voice;
    or else the anchor voice. A role that is an alias always gets one of
    the seven voices of the configuration. *)
Theorem resolve_voice_id_cases (role format_name : str)
    (config : NewsroomConfig) :
  let v := voices config in
  let normalized := default (lower role) (SPEAKER_ALIASES !! lower role) in
  (∀ field, VoiceConfig_fields !! normalized = Some field →
     resolve_voice_id role format_name config = PyStr (field v))
  ∧ (∀ attribute,
       VoiceConfig_fields !! normalized = None →
       model_attr v normalized = Some attribute →
       resolve_voice_id role format_name config = attribute)
  ∧ (VoiceConfig_fields !! normalized = None →
     model_attr v normalized = None →
     resolve_voice_id role format_name config = PyStr (anchor v))
  ∧ (is_Some (SPEAKER_ALIASES !! lower role) →
     resolve_voice_id role format_name config
     ∈ PyStr <$> [anchor v; host v; cohost v; moderator v; sidea v; sideb v;
                  narrator v]).
Proof.
  intros v normalized. rewrite resolve_voice_id_unfold.
  fold v normalized. unfold getattr. split_and!.
  - by intros field ->.
  - by intros attribute -> ->.
  - by intros -> ->.
  - intros [role' Halias]. subst normalized. rewrite Halias. simpl.
    destruct (alias_role _ _ Halias) as [[field Hfield] _]. rewrite Hfield.
    apply (list_elem_of_fmap_2 PyStr
             [anchor v; host v; cohost v; moderator v; sidea v; sideb v;
              narrator v] (field v)).
    by eapply field_is_voice.
Qed.

(** X10: the three tables agree: an alias leads to a role that is a
    voice field and is its own alias, every role of a format table is
    its own alias and names a voice field, and every format has a
    table. *)
Theorem voice_tables_consistent :
  (∀ label role : str,
     SPEAKER_ALIASES !! label = Some role →
     is_Some (VoiceConfig_fields !! role) ∧ SPEAKER_ALIASES !! role = Some role)
  ∧ (∀ (format_name : str) (table : gmap str str) (role field : str),
       VOICE_MAP !! format_name = Some table → table !! role = Some field →
       is_Some (VoiceConfig_fields !! field)
       ∧ SPEAKER_ALIASES !! role = Some role)
  ∧ (∀ fmt : Format, is_Some (VOICE_MAP !! Format_value fmt)).
Proof.
  split_and!.
  - apply alias_role.
  - intros format_name table role field Ht Hr.
    rewrite (VOICE_MAP_same_name _ _ _ _ Ht Hr).
    unfold VOICE_MAP in Ht. apply elem_of_list_to_map_2 in Ht.
    repeat (apply elem_of_cons in Ht as [Ht|Ht];
            [apply (f_equal snd) in Ht; cbn [snd] in Ht; subst table;
             apply elem_of_list_to_map_2 in Hr;
             repeat (apply elem_of_cons in Hr as [Hr|Hr];
                     [apply (f_equal fst) in Hr; cbn [fst] in Hr; subst role;
                      split; [by eexists|reflexivity]|]);
             by apply elem_of_nil in Hr|]).
    by apply elem_of_nil in Ht.
  - intros []; by eexists.
Qed.

(** ** Events of the effectful operations *)

Local Abbreviation Run := (@M Path World).

Lemma emits_mono {A} (m : Run A) (Q Q' : res A → list Event → Prop) :
  emits m Q → (∀ r events, Q r events → Q' r events) → emits m Q'.
Proof.
  intros Hm HQ st. destruct (Hm st) as (events & Htr & Hq).
  exists events. split; [done|by apply HQ].
Qed.

Lemma emits_ret {A} (a : A) (Q : res A → list Event → Prop) :
  Q (Ok a) [] → emits (mret a : Run A) Q.
Proof. intros HQ st. exists []. split; [by rewrite app_nil_r|done]. Qed.

Lemma emits_lift {A} (r : res A) (Q : res A → list Event → Prop) :
  Q r [] → emits (lift r : Run A) Q.
Proof. intros HQ st. exists []. split; [by rewrite app_nil_r|done]. Qed.

Lemma emits_bind {A B} (m : Run A) (k : A → Run B)
    (Q1 : res A → list Event → Prop) (Q : res B → list Event → Prop) :
  emits m Q1 →
  (∀ e events, Q1 (Err e) events → Q (Err e) events) →
  (∀ a events1, Q1 (Ok a) events1 →
     emits (k a) (λ r events2, Q r (events1 ++ events2))) →
  emits (m ≫= k) Q.
Proof.
  intros Hm Herr Hk st. destruct (Hm st) as (events1 & Htr1 & Hq1).
  unfold mbind, M_bind, bind. destruct (m st) as [[a|e] st1]; simpl in *.
  - destruct (Hk a events1 Hq1 st1) as (events2 & Htr2 & Hq2).
    exists (events1 ++ events2). split; [|done].
    by rewrite Htr2, Htr1, app_assoc.
  - exists events1. split; [done|by apply Herr].
Qed.

Lemma emits_os_call (ev : Event) (f : World → option str * World) :
  emits (os_call ev f : Run unit)
    (λ r events, events = [ev] ∧ (r = Ok () ∨ ∃ detail, r = Err (OSError detail))).
Proof.
  intros st. exists [ev]. unfold os_call.
  destruct (f (world st)) as [[detail|] w]; simpl; split_and!; eauto.
Qed.

Lemma emits_print (line : str) :
  emits (print line : Run unit) (λ r events, events = [EvPrint line] ∧ r = Ok ()).
Proof. intros st. by exists [EvPrint line]. Qed.

Lemma emits_subprocess_run (argv : list str) :
  emits (subprocess_run argv : Run unit)
    (λ r events,
       events = [EvRun argv]
       ∧ (r = Ok ()
          ∨ (∃ returncode, r = Err (CalledProcessError returncode)
                           ∧ returncode ≠ 0)
          ∨ ∃ detail, r = Err (OSError detail))).
Proof.
  intros st. exists [EvRun argv]. unfold subprocess_run.
  destruct (os_run argv (world st)) as [[detail|[|p|p]] w]; simpl;
    split_and!; eauto 6.
Qed.

Lemma emits_convert (request : Request) :
  emits (convert request : Run Response)
    (λ r events,
       events = [EvConvert request]
       ∧ ((∃ response, r = Ok response) ∨ ∃ detail, r = Err (ApiError detail))).
Proof.
  intros st. exists [EvConvert request]. unfold convert.
  destruct (tts_convert request (world st)) as [[detail|response] w]; simpl;
    split_and!; eauto.
Qed.

Lemma emits_try_finally {A} (body : Run A) (fin : Run unit)
    (Q1 : res A → list Event → Prop) (Q2 : res unit → list Event → Prop) :
  emits body Q1 → emits fin Q2 →
  emits (try_finally body fin)
    (λ r events, ∃ r1 events1 r2 events2,
       Q1 r1 events1 ∧ Q2 r2 events2 ∧ events = events1 ++ events2
       ∧ r = match r2 with Ok _ => r1 | Err e => Err e end).
Proof.
  intros Hb Hf st. destruct (Hb st) as (events1 & Htr1 & Hq1).
  unfold try_finally. destruct (body st) as [r1 st1]. simpl in *.
  destruct (Hf st1) as (events2 & Htr2 & Hq2).
  destruct (fin st1) as [r2 st2]. simpl in *.
  exists (events1 ++ events2). split.
  - destruct r2; simpl; by rewrite Htr2, Htr1, app_assoc.
  - exists r1, events1, r2, events2. by destruct r2.
Qed.

(** The events of [_concat_files]. *)
Lemma emits_concat_files (files : list Path) (output : Path) :
  emits (_concat_files files output)
    (λ r events,
       let manifest := chunk_manifest output in
       let written := EvWriteText manifest (concat_manifest files) in
       (events = [written] ∧ ∃ detail, r = Err (OSError detail))
       ∨ events = [written;
                   EvRun (ffmpeg_concat_argv manifest output);
                   EvUnlink manifest]).
Proof.
  unfold _concat_files. fold (chunk_manifest output).
  eapply emits_bind; [apply emits_os_call| |].
  - intros e events [-> [?|[detail [= ->]]]]; [done|]. left. eauto.
  - intros [] events1 [-> _].
    eapply emits_mono.
    { apply emits_try_finally; [apply emits_subprocess_run|apply emits_os_call]. }
    intros r events (r1 & ev1 & r2 & ev2 & [-> _] & [-> _] & -> & _).
    by right.
Qed.

(** X11: [_concat_files] removes its manifest whenever it has written
    it: either the write of the manifest fails and nothing else happens,
    or the manifest is written, ffmpeg is run on it and the manifest is
    unlinked, whether ffmpeg succeeded or not; it succeeds only in the
    second case. *)
Theorem concat_files_removes_manifest (files : list Path) (output : Path)
    (st : State) :
  let run := _concat_files files output st in
  let manifest := chunk_manifest output in
  let written := EvWriteText manifest (concat_manifest files) in
  (trace run.2 = trace st ++ [written]
   ∧ ∃ detail, run.1 = Err (OSError detail))
  ∨ trace run.2
    = trace st ++ [written; EvRun (ffmpeg_concat_argv manifest output);
                   EvUnlink manifest].
Proof.
  intros run manifest written.
  destruct (emits_concat_files files output st)
    as (events & Htrace & [[-> Hfail]| ->]).
  - left. by split.
  - by right.
Qed.


(** ** The requests of a run *)

Lemma requests_app (events1 events2 : list (@Event Path)) :
  requests (events1 ++ events2) = requests events1 ++ requests events2.
Proof. apply omap_app. Qed.

Lemma silent_bind {A B} (m : Run A) (k : A → Run B) :
  silent m → (∀ a, silent (k a)) → silent (m ≫= k).
Proof.
  intros Hm Hk. eapply emits_bind; [exact Hm|done|].
  intros a events1 H1. eapply emits_mono; [apply Hk|].
  intros r events2 H2. simpl. by rewrite requests_app, H1, H2.
Qed.

Lemma silent_ret {A} (a : A) : silent (mret a : Run A).
Proof. by apply emits_ret. Qed.

Lemma silent_lift {A} (r : res A) : silent (lift r : Run A).
Proof. by apply emits_lift. Qed.

Lemma silent_os_call (ev : Event) (f : World → option str * World) :
  (∀ r, ev ≠ EvConvert r) → silent (os_call ev f : Run unit).
Proof.
  intros Hev. eapply emits_mono; [apply emits_os_call|].
  intros r events [-> _]. destruct ev; try done. by destruct (Hev r0).
Qed.

Lemma silent_print (line : str) : silent (print line : Run unit).
Proof. eapply emits_mono; [apply emits_print|]. by intros r events [-> _]. Qed.

Lemma silent_concat_files (files : list Path) (output : Path) :
  silent (_concat_files files output).
Proof.
  eapply emits_mono; [apply emits_concat_files|].
  by intros r events [[-> _]| ->].
Qed.

Lemma silent_unlink_all (files : list Path) : silent (unlink_all files).
Proof.
  induction files as [|cf files IH]; simpl; [apply silent_ret|].
  apply silent_bind; [by apply silent_os_call|by intros _].
Qed.

Lemma emits_generate_segment (chunk_text : str) (voice : pyval)
    (model_id output_fmt : str) (prev next : option str) (ids : option (list str)) (out_path : Path) :
  emits (_generate_segment chunk_text voice model_id output_fmt prev next ids
           out_path)
    (λ _ events,
       requests events
       = [sent_request chunk_text voice model_id output_fmt prev next ids]).
Proof.
  unfold _generate_segment, sent_request.
  case_bool_decide;
    (eapply emits_bind; [apply emits_convert| |];
     [by intros e events [-> _]|];
     intros response events1 [-> _];
     eapply emits_bind; [by apply silent_os_call| |];
     [intros e events Hsilent; cbv beta; by rewrite requests_app, Hsilent|];
     intros [] events2 Hsilent; apply emits_ret;
     by rewrite app_nil_r, requests_app, Hsilent).
Qed.

Lemma sends_bind {A B} (m : Run A) (k : A → Run B)
    (Q1 : res A → list Request → Prop) (Q : res B → list Request → Prop) :
  sends m Q1 →
  (∀ e rs, Q1 (Err e) rs → Q (Err e) rs) →
  (∀ a rs1, Q1 (Ok a) rs1 → sends (k a) (λ r rs2, Q r (rs1 ++ rs2))) →
  sends (m ≫= k) Q.
Proof.
  intros Hm Herr Hk. eapply emits_bind; [exact Hm|..].
  - intros e events. apply Herr.
  - intros a events1 H1. eapply emits_mono; [exact (Hk a _ H1)|].
    intros r events2. cbv beta. by rewrite requests_app.
Qed.

Lemma sends_mono {A} (m : Run A) (Q Q' : res A → list Request → Prop) :
  sends m Q → (∀ r rs, Q r rs → Q' r rs) → sends m Q'.
Proof. intros Hm HQ. eapply emits_mono; [exact Hm|]. intros r events. apply HQ. Qed.

Lemma sends_ret {A} (a : A) (Q : res A → list Request → Prop) :
  Q (Ok a) [] → sends (mret a : Run A) Q.
Proof. intros HQ. by apply emits_ret. Qed.

Lemma sends_lift {A} (r : res A) (Q : res A → list Request → Prop) :
  Q r [] → sends (lift r : Run A) Q.
Proof. intros HQ. by apply emits_lift. Qed.

Lemma sends_silent_bind {A B} (m : Run A) (k : A → Run B)
    (Q : res B → list Request → Prop) :
  silent m → (∀ e, Q (Err e) []) → (∀ a, sends (k a) Q) → sends (m ≫= k) Q.
Proof.
  intros Hm Herr Hk.
  apply (sends_bind m k (λ _ rs, rs = [])); [exact Hm|by intros e rs ->|].
  intros a rs ->. apply Hk.
Qed.

Lemma sends_generate_segment (chunk_text : str) (voice : pyval)
    (model_id output_fmt : str) (prev next : option str) (ids : option (list str)) (out_path : Path) :
  sends (_generate_segment chunk_text voice model_id output_fmt prev next ids
           out_path)
    (λ _ rs, rs = [sent_request chunk_text voice model_id output_fmt prev next ids]).
Proof. apply emits_generate_segment. Qed.

Lemma sends_synthesize_chunk (script : Script) (config : NewsroomConfig)
    (audio_dir : Path) (seg : Segment) (prev_text next_text : str)
    (prev_ids : list str) (ci : Z) (chunk_text : str)
    (ids : gmap pyval (list str)) (files : list Path) :
  let chunks := split_into_chunks (text seg) CHUNK_LIMIT in
  let voice := voice_of script config seg in
  _get_adjacent_text (segments script) (index seg) voice config
  = Ok (prev_text, next_text) →
  (length prev_ids ≤ 3)%nat →
  sends (synthesize_chunk config audio_dir seg voice prev_text next_text
           prev_ids chunks ci chunk_text ids files)
    (λ r rs,
       (rs = [] ∧ ∃ e, r = Err e)
       ∨ ∃ rq, rs = [rq]
               ∧ request_for script config (seg, (ci, chunk_text)) rq
               ∧ ∀ ids' files', r = Ok (ids', files') →
                   files' = files ++ [out_path_of audio_dir seg chunks ci]).
Proof.
  intros chunks voice Hadj Hids. unfold synthesize_chunk.
  fold (out_path_of audio_dir seg chunks ci).
  eapply sends_bind.
  { apply (sends_lift _ (λ r rs, rs = []
                           ∧ r = chunk_context chunks ci prev_text next_text)).
    done. }
  { intros e rs [-> _]. left. eauto. }
  intros [chunk_prev chunk_next] rs [-> Hctx].
  eapply sends_bind; [apply sends_generate_segment|..].
  - intros e rs ->. right. eexists. split; [done|]. split; [|done].
    exists prev_text, next_text, chunk_prev, chunk_next, prev_ids. done.
  - intros rid rs ->. apply sends_ret. right. eexists. split; [done|].
    split; [|by intros ids' files' [= _ <-]].
    exists prev_text, next_text, chunk_prev, chunk_next, prev_ids. done.
Qed.

Lemma sends_chunk_loop (script : Script) (config : NewsroomConfig)
    (audio_dir : Path) (seg : Segment) (prev_text next_text : str)
    (prev_ids : list str) (items : list (Z * str))
    (ids : gmap pyval (list str)) (files : list Path) :
  let chunks := split_into_chunks (text seg) CHUNK_LIMIT in
  let voice := voice_of script config seg in
  _get_adjacent_text (segments script) (index seg) voice config
  = Ok (prev_text, next_text) →
  (length prev_ids ≤ 3)%nat →
  sends (chunk_loop config audio_dir seg voice prev_text next_text prev_ids
           chunks items ids files)
    (λ r rs,
       ∃ sent, sent `prefix_of` items
               ∧ Forall2 (λ item rq, request_for script config (seg, item) rq)
                   sent rs
               ∧ ∀ ids' files', r = Ok (ids', files') →
                   sent = items
                   ∧ files' = files
                       ++ ((λ item, out_path_of audio_dir seg chunks item.1)
                             <$> items)).
Proof.
  intros chunks voice Hadj Hids. revert ids files.
  induction items as [|[ci chunk_text] items IH]; intros ids files; simpl.
  { apply sends_ret. exists []. split_and!; [done|constructor|].
    intros ids' files' [= _ <-]. by rewrite app_nil_r. }
  eapply sends_bind.
  { by apply (sends_synthesize_chunk script config audio_dir seg prev_text
                next_text prev_ids ci chunk_text ids files). }
  - intros e rs [[-> _]|(rq & -> & Hrq & _)].
    + exists []. split_and!; [apply prefix_nil|constructor|done].
    + exists [(ci, chunk_text)]. split_and!; [|by repeat constructor|done].
      by exists items.
  - intros [ids1 files1] rs1 [[_ [e [=]]]|(rq & -> & Hrq & Hfiles)].
    specialize (Hfiles ids1 files1 eq_refl). subst files1.
    eapply sends_mono; [apply IH|].
    intros r rs2 (sent & Hpre & Hall & Hok).
    exists ((ci, chunk_text) :: sent). split_and!.
    + by apply prefix_cons.
    + by constructor.
    + intros ids' files' Hr. destruct (Hok ids' files' Hr) as [-> ->].
      split; [done|]. by rewrite <- app_assoc.
Qed.

Lemma enumerate_length {A} (l : list A) : length (enumerate l) = length l.
Proof.
  unfold enumerate. rewrite length_zip_with, length_fmap, length_seq. lia.
Qed.

Lemma getitem_elem_of {A} (l : list A) (i : Z) (x : A) :
  getitem l i = Ok x → x ∈ l.
Proof.
  unfold getitem. destruct (_ || _); [done|].
  destruct (l !! _) as [y|] eqn:Hy; [|done]. intros [= <-].
  by eapply list_elem_of_lookup_2.
Qed.

Lemma history_for_length (d : gmap pyval (list str)) (voice : pyval) :
  (length (history_for d voice).1 ≤ 3)%nat.
Proof. rewrite history_for_fst. apply last_chars_length. Qed.

(** What follows the chunk loop of a turn sends nothing and, when it
    succeeds, appends the artifact of the turn. *)
Lemma sends_finish_segment (script : Script) (config : NewsroomConfig)
    (audio_dir : Path) (seg : Segment) (ids : gmap pyval (list str))
    (files : list Path) (results : list GeneratedAudio) :
  let chunks := split_into_chunks (text seg) CHUNK_LIMIT in
  let voice := voice_of script config seg in
  files = (λ item, out_path_of audio_dir seg chunks item.1) <$> enumerate chunks →
  sends
    (final_path ←
       (if len files >? 1
        then let final_path := segment_file audio_dir seg in
             _concat_files files final_path;;
             unlink_all files;;
             mret final_path
        else lift (getitem files 0));
     let '(l, ids') := dd_getitem ids voice in
     last_id ← lift (if truthy l then getitem l (-1) else Ok []);
     voice_str ← lift (validate_str voice);
     let results := results ++ [{|
       segment_index := index seg;
       file_path := final_path;
       request_id := last_id;
       voice_id := voice_str;
     |}] in
     let tag_display :=
       if truthy (emotion_tag seg) then lit " [" ++ emotion_tag seg ++ lit "]"
       else [] in
     print (lit "  [" ++ str_of_int (index seg + 1) ++ lit "/"
            ++ str_of_int (len (segments script)) ++ lit "] "
            ++ speaker seg ++ tag_display ++ lit " - " ++ name final_path);;
     mret (ids', results))
    (λ r rs,
       rs = []
       ∧ ∀ ids' results', r = Ok (ids', results') →
           ∃ a, results' = results ++ [a]
                ∧ artifact_of script config audio_dir seg a).
Proof.
  intros chunks voice Hfiles.
  eapply (sends_bind _ _ (λ r rs, rs = []
                            ∧ ∀ p, r = Ok p → p = segment_file audio_dir seg)).
  - destruct (len files >? 1) eqn:Hlen.
    + apply sends_silent_bind; [apply silent_concat_files|done|intros _].
      apply sends_silent_bind; [apply silent_unlink_all|done|intros _].
      apply sends_ret. split; [done|]. by intros p [= <-].
    + apply sends_lift. split; [done|]. intros p Hp.
      apply getitem_elem_of in Hp. subst files.
      apply list_elem_of_fmap in Hp as ([ci t] & -> & _).
      unfold out_path_of. simpl.
      rewrite Z.gtb_ltb in Hlen. apply Z.ltb_ge in Hlen.
      unfold len in Hlen. rewrite length_fmap, enumerate_length in Hlen.
      assert ((len chunks >? 1) = false) as ->; [|done].
      rewrite Z.gtb_ltb. apply Z.ltb_ge. unfold len. lia.
  - by intros e rs [-> _].
  - intros final_path rs [-> Hpath]. rewrite (Hpath _ eq_refl).
    destruct (dd_getitem ids voice) as [l ids'].
    eapply (sends_bind _ _ (λ _ rs, rs = [])); [by apply sends_lift|..].
    + by intros e rs ->.
    + intros last_id rs ->.
      eapply (sends_bind _ _ (λ r rs, rs = [] ∧ r = validate_str voice));
        [by apply sends_lift|..].
      * by intros e rs [-> _].
      * intros voice_str rs [-> Hvoice].
        apply sends_silent_bind; [apply silent_print|done|intros _].
        apply sends_ret. split; [done|].
        intros ids'' results' [= _ <-]. eexists. split; [done|].
        split_and!; [done..|]. cbn [voice_id]. fold voice.
        destruct voice; [|done]. by injection Hvoice as <-.
Qed.

Lemma sends_synthesize_segment (script : Script) (config : NewsroomConfig)
    (audio_dir : Path) (seg : Segment) (ids : gmap pyval (list str))
    (results : list GeneratedAudio) :
  sends (synthesize_segment script config audio_dir seg ids results)
    (λ r rs,
       ∃ sent, sent `prefix_of` jobs_of seg
               ∧ Forall2 (request_for script config) sent rs
               ∧ ∀ ids' results', r = Ok (ids', results') →
                   sent = jobs_of seg
                   ∧ ∃ a, results' = results ++ [a]
                          ∧ artifact_of script config audio_dir seg a).
Proof.
  unfold synthesize_segment. fold (voice_of script config seg).
  eapply sends_bind.
  { apply (sends_lift _ (λ r rs, rs = []
             ∧ r = _get_adjacent_text (segments script) (index seg)
                     (voice_of script config seg) config)). done. }
  { intros e rs [-> _]. exists []. split_and!; [apply prefix_nil|constructor|done]. }
  intros [prev_text next_text] rs [-> Hadj].
  apply sends_silent_bind; [apply silent_lift| |intros _].
  { exists []. split_and!; [apply prefix_nil|constructor|done]. }
  pose proof (history_for_length ids (voice_of script config seg)) as Hids.
  destruct (history_for ids (voice_of script config seg)) as [prev_ids ids1].
  simpl in Hids.
  eapply sends_bind.
  { by apply (sends_chunk_loop script config audio_dir seg prev_text next_text
                prev_ids). }
  - intros e rs (sent & Hpre & Hall & _).
    exists ((λ item, (seg, item)) <$> sent). split_and!; [| |done].
    + destruct Hpre as [k Hk]. exists ((λ item, (seg, item)) <$> k).
      unfold jobs_of. by rewrite Hk, fmap_app.
    + by apply Forall2_fmap_l.
  - intros [ids2 files] rs1 (sent & _ & Hall & Hok).
    destruct (Hok ids2 files eq_refl) as [-> Hfiles]. simpl in Hfiles.
    eapply sends_mono.
    { by apply (sends_finish_segment script config audio_dir seg ids2 files
                  results). }
    intros r rs2 [-> Hres]. exists (jobs_of seg). split_and!; [done| |].
    + rewrite app_nil_r. by apply Forall2_fmap_l.
    + intros ids' results' Hr. split; [done|]. by eapply Hres.
Qed.

Lemma jobs_cons (seg : Segment) (segs : list Segment) :
  jobs (seg :: segs) = jobs_of seg ++ jobs segs.
Proof. reflexivity. Qed.

Lemma sends_segment_loop (script : Script) (config : NewsroomConfig)
    (audio_dir : Path) (segs : list Segment) (ids : gmap pyval (list str))
    (results : list GeneratedAudio) :
  sends (segment_loop script config audio_dir segs ids results)
    (λ r rs,
       ∃ sent, sent `prefix_of` jobs segs
               ∧ Forall2 (request_for script config) sent rs
               ∧ ∀ results', r = Ok results' →
                   sent = jobs segs
                   ∧ ∃ new, results' = results ++ new
                            ∧ Forall2 (artifact_of script config audio_dir)
                                segs new).
Proof.
  revert ids results.
  induction segs as [|seg segs IH]; intros ids results; cbn [segment_loop].
  { apply sends_ret. exists []. split_and!; [done|constructor|].
    intros results' [= <-]. split; [done|]. exists []. by rewrite app_nil_r. }
  rewrite jobs_cons.
  eapply sends_bind; [apply sends_synthesize_segment|..].
  - intros e rs (sent & Hpre & Hall & _). exists sent. split_and!; [|done..].
    by apply prefix_app_r.
  - intros [ids1 results1] rs1 (sent & _ & Hall & Hok).
    destruct (Hok ids1 results1 eq_refl) as (-> & a & -> & Ha).
    eapply sends_mono; [apply IH|].
    intros r rs2 (sent & Hpre & Hall2 & Hok2).
    exists (jobs_of seg ++ sent). split_and!.
    + by apply prefix_app.
    + by apply Forall2_app.
    + intros results' Hr. destruct (Hok2 results' Hr) as (-> & new & -> & Hnew).
      split; [done|].
      exists (a :: new). split; [by rewrite <- app_assoc|by constructor].
Qed.

(** The run of [generate_audio]: the requests it sends are requests for
    the first so many chunks of the script, in order, for all of them
    when it succeeds, and then the artifacts are those of the turns. *)
Lemma sends_generate_audio (script : Script) (config : NewsroomConfig)
    (audio_dir : Path) :
  sends (generate_audio script config audio_dir)
    (λ r rs,
       ∃ sent, sent `prefix_of` jobs (segments script)
               ∧ Forall2 (request_for script config) sent rs
               ∧ ∀ results, r = Ok results →
                   sent = jobs (segments script)
                   ∧ Forall2 (artifact_of script config audio_dir)
                       (segments script) results).
Proof.
  unfold generate_audio.
  apply sends_silent_bind; [by apply silent_os_call| |intros _].
  { exists []. split_and!; [apply prefix_nil|constructor|done]. }
  eapply sends_mono; [apply sends_segment_loop|].
  intros r rs (sent & Hpre & Hall & Hok). exists sent. split_and!; [done..|].
  intros results Hr. destruct (Hok results Hr) as (-> & new & -> & Hnew). done.
Qed.

Lemma enumerate_snd {A} (l : list A) : (enumerate l).*2 = l.
Proof.
  unfold enumerate. apply snd_zip. by rewrite length_fmap, length_seq.
Qed.

Lemma jobs_texts (segs : list Segment) :
  (λ job : Segment * (Z * str), job.2.2) <$> jobs segs
  = segs ≫= λ seg, split_into_chunks (text seg) CHUNK_LIMIT.
Proof.
  induction segs as [|seg segs IH]; [done|].
  rewrite jobs_cons, fmap_app, IH, bind_cons. f_equal.
  unfold jobs_of. rewrite <- list_fmap_compose.
  rewrite <- (enumerate_snd (split_into_chunks _ _)) at 2. done.
Qed.

Lemma request_for_texts (script : Script) (config : NewsroomConfig)
    (sent : list (Segment * (Z * str))) (rs : list Request) :
  Forall2 (request_for script config) sent rs →
  req_text <$> rs = (λ job : Segment * (Z * str), job.2.2) <$> sent.
Proof.
  induction 1 as [|job rq sent rs Hrq _ IH]; [done|].
  rewrite !fmap_cons, IH. f_equal.
  by destruct Hrq as (? & ? & ? & ? & ? & _ & _ & _ & ->).
Qed.

Lemma fmap_prefix {A B} (f : A → B) (l1 l2 : list A) :
  l1 `prefix_of` l2 → f <$> l1 `prefix_of` f <$> l2.
Proof. intros [k ->]. exists (f <$> k). apply fmap_app. Qed.

(** X13: the texts that [generate_audio] sends to the client are the
    chunks of the turns, each once and in script order: at any point of a
    run a prefix of them, after a successful run all of them. *)
Theorem generate_audio_sends_the_chunks (script : Script)
    (config : NewsroomConfig) (audio_dir : Path) (st : State) :
  let run := generate_audio script config audio_dir st in
  ∃ events,
    trace run.2 = trace st ++ events
    ∧ req_text <$> requests events `prefix_of` chunk_texts script
    ∧ (∀ results, run.1 = Ok results →
         req_text <$> requests events = chunk_texts script).
Proof.
  intros run.
  destruct (sends_generate_audio script config audio_dir st)
    as (events & Htr & sent & Hpre & Hall & Hok).
  exists events. split; [done|].
  rewrite (request_for_texts _ _ _ _ Hall). unfold chunk_texts.
  rewrite <- jobs_texts. split; [by apply fmap_prefix|].
  intros results Hr. by destruct (Hok results Hr) as [-> _].
Qed.

Lemma chunk_context_bound (chunks : list str) (ci : Z)
    (prev_text next_text chunk_prev chunk_next : str) :
  chunk_context chunks ci prev_text next_text = Ok (chunk_prev, chunk_next) →
  (length prev_text ≤ 200)%nat → (length next_text ≤ 200)%nat →
  (length chunk_prev ≤ 200)%nat ∧ (length chunk_next ≤ 200)%nat.
Proof.
  unfold chunk_context. intros Hctx Hp Hn.
  destruct (if ci >? 0 then _ else _) as [p|e] eqn:Hprev; [|done].
  destruct (if ci <? len chunks - 1 then _ else _) as [n|e] eqn:Hnext; [|done].
  cbn [mbind res_mbind res_bind] in Hctx. injection Hctx as <- <-. split.
  - destruct (ci >? 0); [|by injection Hprev as <-].
    destruct (getitem chunks (ci - 1)) as [c|e]; [|done].
    cbn [mbind res_mbind res_bind] in Hprev. injection Hprev as <-.
    rewrite (slice_last_chars c 200 ltac:(lia) : slice c (Some (-200)) None = _).
    apply last_chars_length.
  - destruct (ci <? len chunks - 1); [|by injection Hnext as <-].
    destruct (getitem chunks (ci + 1)) as [c|e]; [|done].
    cbn [mbind res_mbind res_bind] in Hnext. injection Hnext as <-.
    rewrite (slice_first_chars c 200 : slice c None (Some 200) = _).
    apply first_chars_length.
Qed.

Lemma or_none_Some {A} (l l' : list A) : or_none l = Some l' → l' = l ∧ l ≠ [].
Proof. unfold or_none. destruct l; [done|]. by intros [= <-]. Qed.

Lemma request_for_limits (script : Script) (config : NewsroomConfig)
    (job : Segment * (Z * str)) (rq : Request) :
  request_for script config job rq →
  req_model_id rq = model config
  ∧ req_output_format rq = output_format config
  ∧ req_voice_id rq = voice_of script config job.1
  ∧ context_within_limits rq
  ∧ (model config = lit "eleven_v3" → without_context rq).
Proof.
  intros (prev_text & next_text & chunk_prev & chunk_next & prev_ids
          & Hadj & Hctx & Hids & ->).
  apply get_adjacent_text_bound in Hadj as [Hp Hn].
  destruct (chunk_context_bound _ _ _ _ _ _ Hctx Hp Hn) as [Hcp Hcn].
  split_and!; [done..| |].
  - unfold context_within_limits, sent_request. simpl.
    destruct (bool_decide _); [done|].
    split_and!; intros t Ht; apply or_none_Some in Ht as [-> Hne];
      (split; [done|unfold len; lia]).
  - intros Hmodel. unfold without_context, sent_request. simpl.
    by rewrite bool_decide_eq_true_2.
Qed.

Lemma prefix_elem_of {A} (l1 l2 : list A) (x : A) :
  l1 `prefix_of` l2 → x ∈ l1 → x ∈ l2.
Proof. intros [k ->] Hx. apply elem_of_app. by left. Qed.

Lemma jobs_segment (segs : list Segment) (job : Segment * (Z * str)) :
  job ∈ jobs segs → job.1 ∈ segs.
Proof.
  unfold jobs. intros Hjob.
  apply list_elem_of_bind in Hjob as (seg & Hjob & Hseg).
  unfold jobs_of in Hjob. apply list_elem_of_fmap in Hjob as (item & -> & _).
  done.
Qed.

(** The requests of a run, one by one. *)
Lemma generate_audio_requests (script : Script) (config : NewsroomConfig)
    (audio_dir : Path) (st : State) :
  ∃ events,
    trace (generate_audio script config audio_dir st).2 = trace st ++ events
    ∧ Forall (λ rq, ∃ job, job.1 ∈ segments script
                           ∧ request_for script config job rq)
        (requests events).
Proof.
  destruct (sends_generate_audio script config audio_dir st)
    as (events & Htr & sent & Hpre & Hall & _).
  exists events. split; [done|].
  eapply Forall2_Forall_r; [exact Hall|].
  apply Forall_forall. intros job Hjob rq Hrq. exists job. split; [|done].
  apply jobs_segment. by eapply prefix_elem_of.
Qed.

(** X14: every request of a run of [generate_audio] names the model and
    the output format of the configuration and the voice of a turn of
    the script, and its context and history stay within the limits: a
    context that is present is non-empty with at most 200 characters, a
    history that is present is non-empty with at most three ids. *)
Theorem generate_audio_requests_within_limits (script : Script)
    (config : NewsroomConfig) (audio_dir : Path) (st : State) :
  ∃ events,
    trace (generate_audio script config audio_dir st).2 = trace st ++ events
    ∧ Forall (λ rq,
                req_model_id rq = model config
                ∧ req_output_format rq = output_format config
                ∧ (∃ seg, seg ∈ segments script
                          ∧ req_voice_id rq = voice_of script config seg)
                ∧ context_within_limits rq)
        (requests events).
Proof.
  destruct (generate_audio_requests script config audio_dir st)
    as (events & Htr & Hall).
  exists events. split; [done|].
  eapply Forall_impl; [exact Hall|]. intros rq (job & Hseg & Hrq).
  destruct (request_for_limits _ _ _ _ Hrq) as (? & ? & ? & ? & _).
  split_and!; [done..| |done]. by exists job.1.
Qed.

(** X15: under the model "eleven_v3" no request of a whole run of
    [generate_audio] carries a context or a history. *)
Theorem generate_audio_v3_without_context (script : Script)
    (config : NewsroomConfig) (audio_dir : Path) (st : State) :
  model config = lit "eleven_v3" →
  ∃ events,
    trace (generate_audio script config audio_dir st).2 = trace st ++ events
    ∧ Forall without_context (requests events).
Proof.
  intros Hmodel.
  destruct (generate_audio_requests script config audio_dir st)
    as (events & Htr & Hall).
  exists events. split; [done|].
  eapply Forall_impl; [exact Hall|]. intros rq (job & Hseg & Hrq).
  by apply (request_for_limits _ _ _ _ Hrq).
Qed.

Lemma artifacts_fields (script : Script) (config : NewsroomConfig)
    (audio_dir : Path) (segs : list Segment) (results : list GeneratedAudio) :
  Forall2 (artifact_of script config audio_dir) segs results →
  segment_index <$> results = index <$> segs
  ∧ file_path <$> results = segment_file audio_dir <$> segs.
Proof.
  induction 1 as [|seg a segs results (Hi & Hf & _) _ [IHi IHf]]; [done|].
  by rewrite !fmap_cons, IHi, IHf, Hi, Hf.
Qed.

(** X16: a successful run of [generate_audio] returns one artifact per
    turn, in the order of the turns: each with the index of its turn,
    the voice resolved for its speaker under the format of the script,
    and the file of the turn in the audio directory, whether the turn
    had one chunk or several. *)
Theorem generate_audio_artifacts (script : Script) (config : NewsroomConfig)
    (audio_dir : Path) (st : State) (results : list GeneratedAudio) :
  (generate_audio script config audio_dir st).1 = Ok results →
  Forall2 (artifact_of script config audio_dir) (segments script) results
  ∧ length results = length (segments script)
  ∧ segment_index <$> results = index <$> segments script
  ∧ file_path <$> results = segment_file audio_dir <$> segments script.
Proof.
  intros Hrun.
  destruct (sends_generate_audio script config audio_dir st)
    as (events & _ & sent & _ & _ & Hok).
  destruct (Hok results Hrun) as [_ Hall].
  split; [done|]. split; [symmetry; by eapply Forall2_length|].
  by apply (artifacts_fields script config).
Qed.





(** X24: a turn whose resolved voice is not a string makes the whole run
    fail: the artifact of a turn is validated, so [generate_audio]
    returns no artifacts for a script with such a turn, in any state. *)
Theorem generate_audio_object_voice (script : Script) (config : NewsroomConfig)
    (audio_dir : Path) (st : State) (seg : Segment) (o : N) :
  seg ∈ segments script →
  voice_of script config seg = PyObj o →
  ∃ e, (generate_audio script config audio_dir st).1 = Err e.
Proof.
  intros Hseg Hvoice.
  destruct (sends_generate_audio script config audio_dir st)
    as (events & _ & sent & _ & _ & Hok).
  destruct (generate_audio script config audio_dir st).1 as [results|e];
    [|by exists e].
  destruct (Hok results eq_refl) as [_ Hall].
  apply list_elem_of_lookup in Hseg as [i Hi].
  destruct (Forall2_lookup_l _ _ _ _ _ Hall Hi) as (a & _ & _ & _ & Ha).
  rewrite Hvoice in Ha. discriminate Ha.
Qed.

End MoreProperties.

(** ** scriptgen.py: parsed scripts *)

Lemma span_until_spec (stop : N) (s : str) :
  s = (span_until stop s).1 ++ (span_until stop s).2
  ∧ (stop ∉ (span_until stop s).1)
  ∧ ((span_until stop s).2 = [] ∨ ∃ rest, (span_until stop s).2 = stop :: rest).
Proof.
  induction s as [|c s (IH1 & IH2 & IH3)]; simpl.
  - split_and!; [done|apply not_elem_of_nil|by left].
  - case_bool_decide as Hc; simpl.
    + subst c. split_and!; [done|apply not_elem_of_nil|right; by eexists].
    + destruct (span_until stop s) as [before rest]. simpl in *.
      split_and!; [by f_equal| |done].
      apply not_elem_of_cons. split; [congruence|done].
Qed.

Lemma span_until_stop (stop : N) (tag rest : str) :
  stop ∉ tag → span_until stop (tag ++ stop :: rest) = (tag, stop :: rest).
Proof.
  induction tag as [|c tag IH]; intros Hin; simpl.
  - by rewrite bool_decide_eq_true_2.
  - apply not_elem_of_cons in Hin as [Hc Hin].
    rewrite bool_decide_eq_false_2 by congruence. by rewrite IH.
Qed.

(** The leading tag of a line is [tag] exactly when the line starts with
    an opening bracket, the non-empty [tag] without closing bracket, and
    a closing bracket. *)
Lemma leading_tag_spec (line_text tag : str) :
  leading_tag line_text = Some tag
  ↔ tag ≠ [] ∧ (93%N ∉ tag) ∧ ∃ rest, line_text = 91%N :: tag ++ 93%N :: rest.
Proof.
  split.
  - unfold leading_tag. destruct line_text as [|c line]; [done|].
    case_bool_decide as Hc; [|done]. subst c.
    destruct (span_until_spec 93 line) as (Hcat & Hnot & Hrest).
    destruct (span_until 93 line) as [before rest]. simpl in *.
    destruct rest as [|c' rest]; [done|].
    destruct Hrest as [|[rest' [= -> ->]]]; [done|].
    destruct before as [|b before]; [done|]. simpl. intros [= <-].
    split_and!; [done..|]. exists rest'. by rewrite Hcat.
  - intros (Hne & Hnot & rest & ->). unfold leading_tag.
    rewrite bool_decide_eq_true_2 by done.
    rewrite span_until_stop by done. by destruct tag.
Qed.

(** ** models.py: counting words *)

Lemma str_split_loop_blank (s : str) :
  blank s → str_split_loop s [] = [].
Proof.
  induction 1 as [|c s Hc _ IH]; [done|]. simpl. by rewrite Hc.
Qed.

Lemma str_split_loop_some (s word : str) :
  word ≠ [] ∨ ¬ blank s → str_split_loop s word ≠ [].
Proof.
  revert word. induction s as [|c s IH]; intros word Hw; simpl.
  - destruct Hw as [Hw|Hnb]; [by destruct word|].
    exfalso. apply Hnb. constructor.
  - destruct (isspace c) eqn:Hc.
    + destruct word as [|b word]; [|done]. simpl. apply IH. right.
      destruct Hw as [?|Hnb]; [done|]. intros Hb. apply Hnb. by constructor.
    + apply IH. left. by destruct word.
Qed.

Lemma str_split_nil (s : str) : str_split s = [] ↔ blank s.
Proof.
  split.
  - intros Hnil. destruct (decide (blank s)) as [|Hnb]; [done|].
    by destruct (str_split_loop_some s [] (or_intror Hnb)).
  - apply str_split_loop_blank.
Qed.

Lemma sum_foldr (xs : list Z) (acc : Z) :
  foldl Z.add acc xs = acc + foldr Z.add 0 xs.
Proof.
  revert acc. induction xs as [|x xs IH]; intros acc; simpl; [lia|].
  rewrite IH. lia.
Qed.

Lemma sum_cons (x : Z) (xs : list Z) : sum (x :: xs) = x + sum xs.
Proof. unfold sum. simpl. rewrite !sum_foldr. lia. Qed.

Lemma word_count_cons (fmt : Format) (script_topic : str) (seg : Segment)
    (segs : list Segment) :
  word_count {| format := fmt; topic := script_topic; segments := seg :: segs |}
  = len (str_split (text seg))
    + word_count {| format := fmt; topic := script_topic; segments := segs |}.
Proof. unfold word_count. simpl. apply sum_cons. Qed.

Lemma word_count_at_least (fmt : Format) (script_topic : str)
    (segs : list Segment) :
  len (filter (λ seg, ¬ blank (text seg)) segs)
  <= word_count {| format := fmt; topic := script_topic; segments := segs |}.
Proof.
  induction segs as [|seg segs IH]; [done|].
  rewrite word_count_cons, filter_cons.
  assert (0 <= len (str_split (text seg))) as Hpos by (unfold len; lia).
  destruct (decide (¬ blank (text seg))) as [Hnb|Hb].
  - assert (str_split (text seg) ≠ []) as Hne by (by rewrite str_split_nil).
    assert (1 <= len (str_split (text seg))) as Hone.
    { unfold len. destruct (str_split (text seg)); [done|]. simpl. lia. }
    unfold len in *. simpl. lia.
  - lia.
Qed.

(** X22: [word_count] is zero exactly when every turn is empty or all
    whitespace, and never less than the number of the other turns. *)
Theorem word_count_zero_iff_blank (script : Script) :
  (word_count script = 0
   ↔ Forall (λ seg, blank (text seg)) (segments script))
  ∧ len (filter (λ seg, ¬ blank (text seg)) (segments script))
    <= word_count script.
Proof.
  destruct script as [fmt script_topic segs]. cbn [segments]. split.
  - induction segs as [|seg segs IH]; [done|].
    rewrite word_count_cons, Forall_cons.
    pose proof (word_count_at_least fmt script_topic segs) as Hrest.
    assert (0 <= len (filter (λ seg, ¬ blank (text seg)) segs)) as Hpos
      by (unfold len; lia).
    assert (0 <= len (str_split (text seg))) as Hseg by (unfold len; lia).
    assert (len (str_split (text seg)) = 0 ↔ blank (text seg)) as Hz.
    { rewrite <- str_split_nil. unfold len.
      destruct (str_split (text seg)); simpl; [done|]. split; [lia|done]. }
    split.
    + intros Hsum. split; [apply Hz; lia|apply IH; lia].
    + intros [Hb Hall]. apply Hz in Hb. apply IH in Hall. lia.
  - apply word_count_at_least.
Qed.

Section ScriptProperties.
Context {Path World : Type} {the_host : @Host Path World}.
Variable finditer : str → list LineMatch.

Lemma parse_loop_spec (matches : list LineMatch) (segments : list Segment)
    (idx : Z) :
  idx = len segments →
  indexed_in_order segments →
  Forall well_formed_segment segments →
  indexed_in_order (parse_loop matches segments idx)
  ∧ Forall well_formed_segment (parse_loop matches segments idx)
  ∧ (length segments ≤ length (parse_loop matches segments idx)
     ≤ length segments + length matches)%nat.
Proof.
  revert segments idx.
  induction matches as [|m matches IH]; intros segments idx Hidx Hord Hwf.
  { simpl. split_and!; [done..|lia|lia]. }
  cbn [parse_loop length].
  destruct (truthy (strip (group_text m))) eqn:Hs; cbn [negb].
  2:{ destruct (IH segments idx Hidx Hord Hwf) as (? & ? & ?).
      split_and!; [done..|lia|lia]. }
  set (seg := {| index := idx; speaker := _; text := _; emotion_tag := _;
                 raw_text := _ |}).
  destruct (IH (segments ++ [seg]) (idx + 1)) as (? & ? & Hlen).
  - unfold len in *. rewrite length_app. simpl. lia.
  - intros i s' Hi. destruct (decide (i < length segments)%nat) as [Hlt|Hge].
    + rewrite lookup_app_l in Hi by done. by apply Hord.
    + rewrite lookup_app_r in Hi by lia.
      destruct (i - length segments)%nat as [|k] eqn:Hk; [|by destruct k].
      injection Hi as <-. simpl. unfold len in Hidx. lia.
  - apply Forall_app. split; [done|]. constructor; [|constructor].
    split_and!.
    + split; [|apply strip_idemp].
      subst seg. cbn [text]. intros Hnil. by rewrite Hnil in Hs.
    + reflexivity.
    + by exists m.
  - rewrite length_app in Hlen. simpl in Hlen. split_and!; [done..|lia|lia].
Qed.

(** X18: a script made by [parse_script] has the format and the topic
    it was given, its turns carry the indices 0..N-1 in order, there are
    at most as many turns as matches of the line pattern, and every turn
    has a non-empty text without whitespace around it. *)
Theorem parse_script_well_indexed (script_text : str) (fmt : Format)
    (script_topic : str) :
  let script := parse_script finditer script_text fmt script_topic in
  format script = fmt
  ∧ topic script = script_topic
  ∧ indexed_in_order (segments script)
  ∧ (length (segments script) ≤ length (finditer script_text))%nat
  ∧ Forall (λ seg, trimmed (text seg)) (segments script).
Proof.
  intros script.
  destruct (parse_loop_spec (finditer script_text) [] 0) as (Hord & Hwf & Hlen);
    [done|by intros i seg Hi|constructor|].
  split_and!; [done..| |].
  - simpl in *. lia.
  - eapply Forall_impl; [exact Hwf|]. by intros seg (? & _).
Qed.

(** X19: the emotion tag of a parsed turn is never cut out of its text:
    the tag is [tag] exactly when the text starts with an opening
    bracket, the non-empty [tag] without a closing bracket, and a
    closing bracket; otherwise the tag is empty. *)
Theorem parse_script_emotion_tag (script_text : str) (fmt : Format)
    (script_topic : str) (seg : Segment) :
  seg ∈ segments (parse_script finditer script_text fmt script_topic) →
  (∀ tag, tag ≠ [] →
     (emotion_tag seg = tag
      ↔ (93%N ∉ tag) ∧ ∃ rest, text seg = lit "[" ++ tag ++ lit "]" ++ rest))
  ∧ (emotion_tag seg = []
     ↔ ¬ ∃ tag rest, tag ≠ [] ∧ (93%N ∉ tag)
                     ∧ text seg = lit "[" ++ tag ++ lit "]" ++ rest).
Proof.
  intros Hseg.
  destruct (parse_loop_spec (finditer script_text) [] 0) as (_ & Hwf & _);
    [done|by intros i s Hi|constructor|].
  rewrite Forall_forall in Hwf. destruct (Hwf seg Hseg) as (_ & Htag & _).
  rewrite Htag. change (lit "[") with [91%N]. change (lit "]") with [93%N].
  split.
  - intros tag Hne. split.
    + intros Hdef. destruct (leading_tag (text seg)) as [t|] eqn:Hlt;
        simpl in Hdef; [subst t|congruence].
      apply leading_tag_spec in Hlt as (_ & Hnot & rest & Htext).
      split; [done|]. exists rest. exact Htext.
    + intros (Hnot & rest & Htext).
      assert (leading_tag (text seg) = Some tag) as ->; [|done].
      apply leading_tag_spec. split_and!; [done..|]. exists rest. exact Htext.
  - split.
    + intros Hdef (tag & rest & Hne & Hnot & Htext).
      assert (leading_tag (text seg) = Some tag) as Hlt.
      { apply leading_tag_spec. split_and!; [done..|]. exists rest. exact Htext. }
      rewrite Hlt in Hdef. done.
    + intros Hno. destruct (leading_tag (text seg)) as [t|] eqn:Hlt; [|done].
      exfalso. apply Hno.
      apply leading_tag_spec in Hlt as (Hne & Hnot & rest & Htext).
      exists t, rest. split_and!; [done..|]. exact Htext.
Qed.

(** X20: a speaker label that, stripped, in lower case and with hyphens
    for underscores, is a known alias is normalized to the role of the
    alias, and the voice resolved for the normalized label is the voice
    field of that role, under any format: the fallback to the anchor
    voice is not taken. *)
Theorem normalize_speaker_resolves (raw role format_name : str)
    (config : NewsroomConfig) :
  SPEAKER_ALIASES !! replace_char 95 45 (lower (strip raw)) = Some role →
  lower role = role →
  normalize_speaker raw = role
  ∧ ∃ field, VoiceConfig_fields !! role = Some field
             ∧ resolve_voice_id (normalize_speaker raw) format_name config
               = PyStr (field (voices config)).
Proof.
  intros Halias Hlower.
  assert (normalize_speaker raw = role) as Hn.
  { unfold normalize_speaker. cbv zeta. by rewrite Halias. }
  split; [done|]. rewrite Hn.
  destruct (alias_role _ _ Halias) as [[field Hfield] Hself].
  exists field. split; [done|].
  rewrite resolve_voice_id_unfold, Hlower, Hself. simpl.
  unfold getattr. by rewrite Hfield.
Qed.

Lemma replace_char_absent (old new : N) (s : str) :
  old ∉ s → replace_char old new s = s.
Proof.
  induction s as [|c s IH]; intros Hin; [done|].
  apply not_elem_of_cons in Hin as [Hc Hin]. unfold replace_char in *.
  rewrite fmap_cons, IH by done.
  by rewrite bool_decide_eq_false_2 by congruence.
Qed.

Lemma filter_all {A} (P : A → Prop) `{!∀ x, Decision (P x)} (l : list A) :
  Forall P l → filter P l = l.
Proof.
  induction 1 as [|x l Hx _ IH]; [done|].
  by rewrite filter_cons_True, IH.
Qed.

(** X21: a slug holds only lower-case ASCII letters, digits and hyphens,
    and a slug that its own lower-casing leaves alone is the slug of
    itself. *)
Theorem slugify_stable (text : str) :
  Forall (λ c, slug_char c = true) (_slugify text)
  ∧ (lower (_slugify text) = _slugify text →
     _slugify (_slugify text) = _slugify text).
Proof.
  assert (Forall (λ c : N, slug_char c) (_slugify text)) as Hslug.
  { apply Forall_forall. intros c Hc. unfold _slugify in Hc.
    by apply list_elem_of_filter in Hc as [Hc _]. }
  split.
  - eapply Forall_impl; [exact Hslug|]. intros c Hc. by apply Is_true_true.
  - intros Hlower. unfold _slugify at 1. rewrite Hlower.
    rewrite replace_char_absent.
    + by apply filter_all.
    + intros Hin. rewrite Forall_forall in Hslug. by apply (Hslug 32%N).
Qed.

(** X23: in a script made by [parse_script] every turn counts at least
    one word: the word count is not below the number of turns. *)
Theorem parse_script_word_count (script_text : str) (fmt : Format)
    (script_topic : str) :
  let script := parse_script finditer script_text fmt script_topic in
  len (segments script) <= word_count script.
Proof.
  intros script.
  destruct (parse_loop_spec (finditer script_text) [] 0) as (_ & Hwf & _);
    [done|by intros i seg Hi|constructor|].
  pose proof (word_count_at_least fmt script_topic (segments script)) as Hcount.
  rewrite filter_all in Hcount; [exact Hcount|].
  eapply Forall_impl; [exact Hwf|]. intros seg ((Hne & Hstrip) & _) Hb.
  apply Hne. rewrite <- Hstrip. by apply strip_blank.
Qed.

End ScriptProperties.

(** * The further properties on examples *)

(** Two units, the first closed at its full stop. *)
Lemma split_sentences_unit_shape_witness :
  _split_sentences (lit "Hi. Yo") !! 0%nat = Some (lit "Hi.")
  ∧ (1 < length (_split_sentences (lit "Hi. Yo")))%nat
  ∧ (2 ≤ length (lit "Hi."))%nat
  ∧ ∃ t, last (lit "Hi.") = Some t ∧ is_terminator t = true.
Proof.
  assert (_split_sentences (lit "Hi. Yo") !! 0%nat = Some (lit "Hi.")) as Hu
    by reflexivity.
  assert (1 < length (_split_sentences (lit "Hi. Yo")))%nat as Hi
    by (vm_compute; lia).
  destruct (split_sentences_unit_shape (lit "Hi. Yo")) as [Hclosed _].
  destruct (Hclosed 0%nat (lit "Hi.") Hu Hi) as [Hlen Hlast].
  split_and!; [exact Hu|exact Hi|exact Hlen|exact Hlast].
Defined.

(** Seven characters under a limit of four: two units of three and four
    characters, two chunks within the limit. *)
Lemma split_into_chunks_within_bound_witness :
  0 <= 4
  ∧ Forall (λ u, len u <= 4) (_split_sentences (lit "Hi. Yo."))
  ∧ Forall (λ c, len c <= 4) (split_into_chunks (lit "Hi. Yo.") 4).
Proof.
  assert (0 <= 4) as Hlimit by lia.
  assert (Forall (λ u, len u <= 4) (_split_sentences (lit "Hi. Yo."))) as Hunits.
  { apply (bool_decide_unpack _). vm_compute. exact I. }
  split_and!; [exact Hlimit|exact Hunits|].
  exact (split_into_chunks_within_bound (lit "Hi. Yo.") 4 Hlimit Hunits).
Defined.

Example split_into_chunks_two_chunks :
  split_into_chunks (lit "Hi. Yo.") 4 = [lit "Hi."; lit "Yo."].
Proof. vm_compute. reflexivity. Qed.

Lemma split_into_chunks_nonempty_trimmed_witness :
  4 < len (lit "Hi. Yo.")
  ∧ ¬ blank (lit "Hi. Yo.")
  ∧ Forall trimmed (split_into_chunks (lit "Hi. Yo.") 4).
Proof.
  assert (4 < len (lit "Hi. Yo.")) as Hlen by (vm_compute; reflexivity).
  assert (¬ blank (lit "Hi. Yo.")) as Hnb.
  { intros Hb. apply Forall_cons in Hb as [Hc _]. vm_compute in Hc.
    discriminate Hc. }
  split_and!; [exact Hlen|exact Hnb|].
  exact (proj2 (split_into_chunks_nonempty_trimmed (lit "Hi. Yo.") 4) Hlen Hnb).
Defined.

(** Nine characters without a terminator under a limit of three. *)
Lemma split_into_chunks_unterminated_witness :
  unterminated (lit " no stop ")
  ∧ ¬ blank (lit " no stop ")
  ∧ 3 < len (lit " no stop ")
  ∧ split_into_chunks (lit " no stop ") 3 = [strip (lit " no stop ")].
Proof.
  assert (unterminated (lit " no stop ")) as Hun.
  { apply (bool_decide_unpack _). vm_compute. exact I. }
  assert (¬ blank (lit " no stop ")) as Hnb.
  { intros Hb. apply Forall_cons in Hb as [_ Hb].
    apply Forall_cons in Hb as [Hc _]. vm_compute in Hc. discriminate Hc. }
  assert (3 < len (lit " no stop ")) as Hlen by (vm_compute; reflexivity).
  split_and!; [exact Hun|exact Hnb|exact Hlen|].
  exact (split_into_chunks_unterminated (lit " no stop ") 3 Hun Hnb Hlen).
Defined.

(** Five spaces under a limit of two. *)
Lemma split_into_chunks_blank_witness :
  blank (lit "     ")
  ∧ 0 <= 2
  ∧ 2 < len (lit "     ")
  ∧ split_into_chunks (lit "     ") 2 = [take (Z.to_nat 2) (lit "     ")]
  ∧ len (take (Z.to_nat 2) (lit "     ")) = 2.
Proof.
  assert (blank (lit "     ")) as Hb.
  { apply (bool_decide_unpack _). vm_compute. exact I. }
  assert (0 <= 2) as Hlimit by lia.
  assert (2 < len (lit "     ")) as Hlen by (vm_compute; reflexivity).
  destruct (split_into_chunks_blank (lit "     ") 2 Hb Hlimit Hlen)
    as [Hchunks Hcut].
  split_and!; [exact Hb|exact Hlimit|exact Hlen|exact Hchunks|exact Hcut].
Defined.

(** Turn 2 of host, co-host, host. *)
Lemma get_adjacent_text_at_most_200_witness :
  _get_adjacent_text Demo.turns 2 (PyStr (host VoiceConfig_default)) Demo.config
  = Ok (lit "Hello there.", [])
  ∧ len (lit "Hello there.") <= 200
  ∧ len ([] : str) <= 200.
Proof.
  assert (_get_adjacent_text Demo.turns 2 (PyStr (host VoiceConfig_default)) Demo.config
          = Ok (lit "Hello there.", [])) as Hok by (vm_compute; reflexivity).
  destruct (get_adjacent_text_at_most_200 Demo.turns 2 (PyStr (host VoiceConfig_default))
              Demo.config (lit "Hello there.") [] Hok) as [Hprev Hnext].
  split_and!; [exact Hok|exact Hprev|exact Hnext].
Defined.

(** Three turns: the index 3 still gives a context, the index 4 raises. *)
Lemma get_adjacent_text_index_range_witness :
  0 <= 4
  ∧ len Demo.turns < 4
  ∧ _get_adjacent_text Demo.turns 4 (PyStr (host VoiceConfig_default)) Demo.config
    = Err IndexError.
Proof.
  assert (0 <= 4) as Hidx by lia.
  assert (len Demo.turns < 4) as Hlen by (vm_compute; reflexivity).
  split_and!; [exact Hidx|exact Hlen|].
  exact (proj2 (get_adjacent_text_index_range Demo.turns 4
                  (PyStr (host VoiceConfig_default)) Demo.config Hidx) Hlen).
Defined.

Example get_adjacent_text_one_past_the_end :
  _get_adjacent_text Demo.turns 3 (PyStr (host VoiceConfig_default)) Demo.config
  = Ok (lit "How are you?", []).
Proof. vm_compute. reflexivity. Qed.

(** The example model answers [copy] with a method: the label COPY gets
    that method, not the anchor voice. *)
Lemma resolve_voice_id_cases_witness :
  VoiceConfig_fields !! Demo.ascii_lower (lit "COPY") = None
  ∧ model_attr (Host := Demo.demo_host) VoiceConfig_default
      (Demo.ascii_lower (lit "COPY")) = Some (PyObj 1)
  ∧ resolve_voice_id (lit "COPY") (lit "podcast") Demo.config = PyObj 1.
Proof.
  assert (VoiceConfig_fields !! Demo.ascii_lower (lit "COPY") = None) as Hfield
    by (vm_compute; reflexivity).
  assert (model_attr (Host := Demo.demo_host) VoiceConfig_default
            (Demo.ascii_lower (lit "COPY")) = Some (PyObj 1)) as Hattr
    by (vm_compute; reflexivity).
  split_and!; [exact Hfield|exact Hattr|].
  destruct (resolve_voice_id_cases (lit "COPY") (lit "podcast") Demo.config)
    as (_ & Hcase & _).
  exact (Hcase (PyObj 1) Hfield Hattr).
Defined.

(** A label that is neither an alias, nor a field, nor an attribute of
    the model gets the anchor voice. *)
Example resolve_voice_id_unknown_role :
  resolve_voice_id (lit "UNKNOWN_SPEAKER") (lit "podcast") Demo.config
  = PyStr (anchor VoiceConfig_default).
Proof. vm_compute. reflexivity. Qed.

Lemma generate_audio_v3_without_context_witness :
  let script := {| format := PODCAST; topic := []; segments := Demo.turns |} in
  let st := {| world := []; trace := [] |} in
  model Demo.config = lit "eleven_v3"
  ∧ ∃ events,
      trace (generate_audio script Demo.config [lit "audio"] st).2
      = trace st ++ events
      ∧ Forall without_context (requests events).
Proof.
  intros script st.
  assert (model Demo.config = lit "eleven_v3") as Hmodel by reflexivity.
  split; [exact Hmodel|].
  exact (generate_audio_v3_without_context script Demo.config [lit "audio"] st
           Hmodel).
Defined.

(** The three turns of host, co-host, host: three artifacts. *)
Lemma generate_audio_artifacts_witness :
  let script := {| format := PODCAST; topic := []; segments := Demo.turns |} in
  let st := {| world := []; trace := [] |} in
  ∃ results,
    (generate_audio script Demo.config_v2 [lit "audio"] st).1 = Ok results
    ∧ Forall2 (artifact_of script Demo.config_v2 [lit "audio"])
        (segments script) results
    ∧ length results = length (segments script)
    ∧ segment_index <$> results = index <$> segments script
    ∧ file_path <$> results = segment_file [lit "audio"] <$> segments script.
Proof.
  intros script st.
  destruct (generate_audio script Demo.config_v2 [lit "audio"] st).1
    as [results|e] eqn:Hrun.
  - exists results. split; [reflexivity|].
    exact (generate_audio_artifacts script Demo.config_v2 [lit "audio"] st
             results Hrun).
  - exfalso. vm_compute in Hrun. discriminate Hrun.
Defined.

Example generate_audio_three_files :
  file_path <$>
    default []
      (match (generate_audio
                {| format := PODCAST; topic := []; segments := Demo.turns |}
                Demo.config_v2 [lit "audio"] {| world := []; trace := [] |}).1
       with Ok results => Some results | Err _ => None end)
  = [[lit "audio"; lit "000_HOST.mp3"]; [lit "audio"; lit "001_CO-HOST.mp3"];
     [lit "audio"; lit "002_HOST.mp3"]].
Proof. vm_compute. reflexivity. Qed.


(** One turn whose label the example model answers with a method. *)
Lemma generate_audio_object_voice_witness :
  let seg := Demo.turn 0 "COPY" "Hello." in
  let script := {| format := PODCAST; topic := []; segments := [seg] |} in
  let st := {| world := []; trace := [] |} in
  seg ∈ segments script
  ∧ voice_of script Demo.config_v2 seg = PyObj 1
  ∧ ∃ e, (generate_audio script Demo.config_v2 [lit "audio"] st).1 = Err e.
Proof.
  intros seg script st.
  assert (seg ∈ segments script) as Hseg by (by constructor).
  assert (voice_of script Demo.config_v2 seg = PyObj 1) as Hvoice
    by (vm_compute; reflexivity).
  split_and!; [exact Hseg|exact Hvoice|].
  exact (generate_audio_object_voice script Demo.config_v2 [lit "audio"] st
           seg 1 Hseg Hvoice).
Defined.

(** That run: the request is sent with the method as its voice, the
    audio is written, and then the artifact is refused. *)
Example generate_audio_method_voice :
  let run :=
    generate_audio
      {| format := PODCAST; topic := [];
         segments := [Demo.turn 0 "COPY" "Hello."] |}
      Demo.config_v2 [lit "audio"] {| world := []; trace := [] |} in
  run.1 = Err ValidationError
  ∧ (λ r, (req_text r, req_voice_id r)) <$> requests (trace run.2)
    = [(lit "Hello.", PyObj 1)].
Proof. vm_compute. split; reflexivity. Qed.

(** A label that the example model answers with its dictionary: the
    tracker cannot hash it, and nothing is sent. *)
Example generate_audio_unhashable_voice :
  generate_audio
    {| format := PODCAST; topic := [];
       segments := [Demo.turn 0 "__DICT__" "Hello."] |}
    Demo.config_v2 [lit "audio"] {| world := []; trace := [] |}
  = (Err TypeError,
     {| world := [[lit "audio"]]; trace := [EvMkdir [lit "audio"]] |}).
Proof. vm_compute. reflexivity. Qed.

(** One match of the line pattern, with a leading tag. *)
Lemma parse_script_emotion_tag_witness :
  let m := {| group_0 := lit "HOST: [excited] Hi ";
              group_speaker := lit "HOST";
              group_text := lit "[excited] Hi " |} in
  let seg := {| index := 0; speaker := lit "host"; text := lit "[excited] Hi";
                emotion_tag := lit "excited"; raw_text := group_0 m |} in
  let script :=
    parse_script (the_host := Demo.demo_host) (λ _, [m])
      (lit "HOST: [excited] Hi ") PODCAST (lit "greeting") in
  seg ∈ segments script
  ∧ (emotion_tag seg = lit "excited"
     ↔ (93%N ∉ lit "excited")
       ∧ ∃ rest, text seg = lit "[" ++ lit "excited" ++ lit "]" ++ rest).
Proof.
  intros m seg script.
  assert (seg ∈ segments script) as Hin.
  { assert (segments script = [seg]) as -> by (vm_compute; reflexivity).
    by constructor. }
  split; [exact Hin|].
  destruct (parse_script_emotion_tag (the_host := Demo.demo_host) (λ _, [m])
              (lit "HOST: [excited] Hi ") PODCAST (lit "greeting") seg Hin)
    as [Htag _].
  apply Htag. discriminate.
Defined.

(** Two matches, the first with a blank text: one turn. *)
Example parse_script_skips_blank_lines :
  let blank_line := {| group_0 := lit "HOST:  "; group_speaker := lit "HOST";
                       group_text := lit " " |} in
  let line := {| group_0 := lit "Co_Host: Hi."; group_speaker := lit "Co_Host";
                 group_text := lit "Hi." |} in
  segments (parse_script (the_host := Demo.demo_host) (λ _, [blank_line; line])
              [] PODCAST [])
  = [{| index := 0; speaker := lit "cohost"; text := lit "Hi.";
        emotion_tag := []; raw_text := lit "Co_Host: Hi." |}].
Proof. vm_compute. reflexivity. Qed.

Lemma normalize_speaker_resolves_witness :
  SPEAKER_ALIASES
    !! replace_char 95 45 (lower (Host := Demo.demo_host) (strip (lit " Co_Host ")))
  = Some (lit "cohost")
  ∧ lower (Host := Demo.demo_host) (lit "cohost") = lit "cohost"
  ∧ normalize_speaker (the_host := Demo.demo_host) (lit " Co_Host ")
    = lit "cohost"
  ∧ ∃ field,
      VoiceConfig_fields !! lit "cohost" = Some field
      ∧ resolve_voice_id
          (normalize_speaker (the_host := Demo.demo_host) (lit " Co_Host "))
          (lit "podcast") Demo.config
        = PyStr (field (voices Demo.config)).
Proof.
  assert (SPEAKER_ALIASES
            !! replace_char 95 45
                 (lower (Host := Demo.demo_host) (strip (lit " Co_Host ")))
          = Some (lit "cohost")) as Halias by (vm_compute; reflexivity).
  assert (lower (Host := Demo.demo_host) (lit "cohost") = lit "cohost") as Hlower
    by reflexivity.
  destruct (normalize_speaker_resolves (lit " Co_Host ") (lit "cohost")
              (lit "podcast") Demo.config Halias Hlower) as [Hrole Hvoice].
  split_and!; [exact Halias|exact Hlower|exact Hrole|exact Hvoice].
Defined.

Lemma slugify_stable_witness :
  let slug := _slugify (the_host := Demo.demo_host) (lit "Hello World 42!") in
  lower (Host := Demo.demo_host) slug = slug
  ∧ _slugify (the_host := Demo.demo_host) slug = slug.
Proof.
  intros slug.
  assert (lower (Host := Demo.demo_host) slug = slug) as Hlower
    by (vm_compute; reflexivity).
  split; [exact Hlower|].
  exact (proj2 (slugify_stable (the_host := Demo.demo_host)
                  (lit "Hello World 42!")) Hlower).
Defined.

Example slugify_topic :
  _slugify (the_host := Demo.demo_host) (lit "Hello World 42!")
  = lit "hello-world-42".
Proof. vm_compute. reflexivity. Qed.

(** Two, one and three words. *)
Example word_count_of_three_turns :
  word_count {| format := PODCAST; topic := []; segments := Demo.turns |} = 6.
Proof. vm_compute. reflexivity. Qed.
